(** * Verification of the multiplayer viewport client (src/main.js)

    A shallow embedding of the client's state reconciliation, viewport
    clamping, avatar frame materialization and input controller, followed
    by the properties of the specification proved against it.

    Conventions of the embedding:
    - the module-level variables of main.js ([gameState], [ws],
      [pressedKeys], [movementInterval], [lastMovementTime]) are the fields
      of one record [World], threaded explicitly through every function;
    - [gameState.players] is a [gmap string Player]: the code only looks
      entries up, assigns and deletes them in the functions modelled here;
    - [pressedKeys], [gameState.avatars] and [avatar.frames] are enumerated
      by the code ([Object.keys], [Object.values]), so they are
      insertion-ordered association lists ([JsObject.t]);
    - JavaScript numbers are exact rationals ([Q]); timestamps returned by
      [Date.now()] are integers ([Z], milliseconds);
    - a property lookup sees the properties an object owns; player ids,
      avatar names and key names are not names of inherited properties;
    - a function that may throw returns [option]: [None] is the exception. *)

From Stdlib Require Import QArith Qminmax.
From stdpp Require Import gmap strings list fin_maps.

(** ** JavaScript objects whose enumeration order is observed *)

Module JsObject.

Definition t (V : Type) : Type := list (string * V).

Definition empty {V : Type} : t V := [].

(** [o[k]]: the value of the own property [k], [None] for [undefined]. *)
Fixpoint get {V : Type} (o : t V) (k : string) : option V :=
  match o with
  | [] => None
  | (k', v) :: rest => if String.eqb k' k then Some v else get rest k
  end.

(** [o[k] = v]: an existing property keeps its place in the enumeration
    order, a new one is appended. *)
Fixpoint set {V : Type} (o : t V) (k : string) (v : V) : t V :=
  match o with
  | [] => [(k, v)]
  | (k', v') :: rest =>
      if String.eqb k' k then (k', v) :: rest else (k', v') :: set rest k v
  end.

(** [Object.keys(o)]. *)
Definition keys {V : Type} (o : t V) : list string := map fst o.

End JsObject.

(** ** Data model *)

Inductive Direction : Type := up | down | left | right.

Inductive Facing : Type := north | south | east | west.

Record Player : Type := mkPlayer {
  player_id : string;
  player_username : string;
  player_x : Q;
  player_y : Q;
  player_facing : Facing;
  player_isMoving : bool;
  player_avatar : string;
  player_animationFrame : nat
}.

(** A frame slot is the data string sent by the server or the [Image]
    object that replaced it; an [Image] is identified by its position in
    the list of images created so far. *)
Inductive Slot : Type :=
| Raw (base64Data : string)
| Img (handle : nat).

Record Avatar : Type := mkAvatar {
  avatar_name : string;
  avatar_frames : JsObject.t (list Slot)
}.

Record Viewport : Type := mkViewport {
  viewport_x : Q;
  viewport_y : Q;
  viewport_width : Q;
  viewport_height : Q
}.

Record GameState : Type := mkGameState {
  myPlayerId : option string;
  players : gmap string Player;
  avatars : JsObject.t Avatar;
  viewport : Viewport
}.

(** ** The message channel *)

Inductive OutMessage : Type :=
| MsgJoinGame (username : string)
| MsgMove (direction : option Direction)
| MsgStop.

Inductive ReadyState : Type := CONNECTING | OPEN | CLOSING | CLOSED.

Record WebSocket : Type := mkWebSocket {
  readyState : ReadyState
}.

Inductive ServerMessage : Type :=
| JoinGame (success : bool) (playerId : string)
    (snapshot : gmap string Player) (snapshotAvatars : JsObject.t Avatar)
    (error : string)
| PlayerJoined (player : Player) (avatar : option Avatar)
| PlayersMoved (moved : gmap string Player)
| PlayerLeft (playerId : string)
| UnknownAction (action : string).

Inductive LogEntry : Type :=
| ConsoleLog (text : string)
| ConsoleError (text : string) (detail : string).

(** ** Module-level state *)

Record World : Type := mkWorld {
  gameState : GameState;
  ws : option WebSocket;
  pressedKeys : JsObject.t bool;
  movementInterval : option positive;
  lastMovementTime : Z;
  nextTimer : positive;
  images : list string;
  console : list LogEntry;
  transmitted : list OutMessage
}.

Definition MOVEMENT_INTERVAL : Z := 150.

Definition initialWorld : World :=
  mkWorld
    (mkGameState None ∅ JsObject.empty (mkViewport 0 0 0 0))
    None JsObject.empty None 0%Z 1%positive [] [] [].

(** Field updates of the module-level state. *)

Definition with_gameState (g : GameState) (w : World) : World :=
  mkWorld g (ws w) (pressedKeys w) (movementInterval w) (lastMovementTime w)
    (nextTimer w) (images w) (console w) (transmitted w).

Definition with_ws (s : option WebSocket) (w : World) : World :=
  mkWorld (gameState w) s (pressedKeys w) (movementInterval w)
    (lastMovementTime w) (nextTimer w) (images w) (console w) (transmitted w).

Definition with_pressedKeys (pk : JsObject.t bool) (w : World) : World :=
  mkWorld (gameState w) (ws w) pk (movementInterval w) (lastMovementTime w)
    (nextTimer w) (images w) (console w) (transmitted w).

Definition with_movementInterval (i : option positive) (w : World) : World :=
  mkWorld (gameState w) (ws w) (pressedKeys w) i (lastMovementTime w)
    (nextTimer w) (images w) (console w) (transmitted w).

Definition with_lastMovementTime (t : Z) (w : World) : World :=
  mkWorld (gameState w) (ws w) (pressedKeys w) (movementInterval w) t
    (nextTimer w) (images w) (console w) (transmitted w).

Definition with_nextTimer (n : positive) (w : World) : World :=
  mkWorld (gameState w) (ws w) (pressedKeys w) (movementInterval w)
    (lastMovementTime w) n (images w) (console w) (transmitted w).

Definition with_images (imgs : list string) (w : World) : World :=
  mkWorld (gameState w) (ws w) (pressedKeys w) (movementInterval w)
    (lastMovementTime w) (nextTimer w) imgs (console w) (transmitted w).

Definition console_log (text : string) (w : World) : World :=
  mkWorld (gameState w) (ws w) (pressedKeys w) (movementInterval w)
    (lastMovementTime w) (nextTimer w) (images w)
    (console w ++ [ConsoleLog text]) (transmitted w).

Definition console_error (text detail : string) (w : World) : World :=
  mkWorld (gameState w) (ws w) (pressedKeys w) (movementInterval w)
    (lastMovementTime w) (nextTimer w) (images w)
    (console w ++ [ConsoleError text detail]) (transmitted w).

Definition with_transmitted (out : list OutMessage) (w : World) : World :=
  mkWorld (gameState w) (ws w) (pressedKeys w) (movementInterval w)
    (lastMovementTime w) (nextTimer w) (images w) (console w) out.

Definition with_players (ps : gmap string Player) (g : GameState) : GameState :=
  mkGameState (myPlayerId g) ps (avatars g) (viewport g).

Definition with_avatars (avs : JsObject.t Avatar) (g : GameState) : GameState :=
  mkGameState (myPlayerId g) (players g) avs (viewport g).

Definition with_viewport (v : Viewport) (g : GameState) : GameState :=
  mkGameState (myPlayerId g) (players g) (avatars g) v.

(** ** Avatar frame materialization *)

(** [forEach] over an array whose callback may overwrite the slot it is
    visiting, threading the state [S] the callback changes. *)
Fixpoint forEach_slot {A S : Type} (f : A -> S -> A * S) (l : list A) (s : S)
  : list A * S :=
  match l with
  | [] => ([], s)
  | a :: rest =>
      let '(a', s1) := f a s in
      let '(rest', s2) := forEach_slot f rest s1 in
      (a' :: rest', s2)
  end.

(** The callback of [frameArray.forEach]: [typeof base64Data === 'string']
    holds of [Raw] only; [new Image()] appends to the images created. *)
Definition preloadSlot (slot : Slot) (imgs : list string) : Slot * list string :=
  match slot with
  | Raw base64Data =>
      if String.prefix "data:" base64Data
      then (Img (List.length imgs), imgs ++ [base64Data])
      else (slot, imgs)
  | Img _ => (slot, imgs)
  end.

Definition preloadFrameArray : list Slot -> list string -> list Slot * list string :=
  forEach_slot preloadSlot.

Definition preloadFrames
  : JsObject.t (list Slot) -> list string -> JsObject.t (list Slot) * list string :=
  forEach_slot (fun '(direction, frameArray) imgs =>
    let '(frameArray', imgs') := preloadFrameArray frameArray imgs in
    ((direction, frameArray'), imgs')).

Definition preloadAvatar (avatar : Avatar) (imgs : list string)
  : Avatar * list string :=
  let '(frames', imgs') := preloadFrames (avatar_frames avatar) imgs in
  (mkAvatar (avatar_name avatar) frames', imgs').

Definition preloadAvatars
  : JsObject.t Avatar -> list string -> JsObject.t Avatar * list string :=
  forEach_slot (fun '(name, avatar) imgs =>
    let '(avatar', imgs') := preloadAvatar avatar imgs in
    ((name, avatar'), imgs')).

Definition preloadAvatarImages (w : World) : World :=
  let '(avatars', imgs') := preloadAvatars (avatars (gameState w)) (images w) in
  with_images imgs' (with_gameState (with_avatars avatars' (gameState w)) w).

(** ** Viewport *)

Definition worldWidth : Q := 2048.
Definition worldHeight : Q := 2048.

Definition centerViewportOnMyAvatar (w : World) : World :=
  let g := gameState w in
  match myPlayerId g with
  | None => w
  | Some pid =>
      if String.eqb pid "" then w
      else
        match players g !! pid with
        | None => w
        | Some myPlayer =>
            let v := viewport g in
            let targetX := (player_x myPlayer - viewport_width v / 2)%Q in
            let targetY := (player_y myPlayer - viewport_height v / 2)%Q in
            let clampedX := Qmax 0 (Qmin targetX (worldWidth - viewport_width v)) in
            let clampedY := Qmax 0 (Qmin targetY (worldHeight - viewport_height v)) in
            with_gameState
              (with_viewport
                 (mkViewport clampedX clampedY (viewport_width v) (viewport_height v))
                 g)
              w
        end
  end.

(** [setupCanvas], without the redraw: the viewport takes the size of the
    window. *)
Definition setupCanvas (innerWidth innerHeight : Q) (w : World) : World :=
  let g := gameState w in
  let v := viewport g in
  with_gameState
    (with_viewport (mkViewport (viewport_x v) (viewport_y v) innerWidth innerHeight) g)
    w.

(** ** Inbound messages *)

(** Truthiness of [pressedKeys[k]], which is [true], [false] or
    [undefined]. *)
Definition truthy (b : option bool) : bool :=
  match b with Some true => true | _ => false end.

(** [Object.keys(pressedKeys).some(k => pressedKeys[k])]. *)
Definition somePressed (pk : JsObject.t bool) : bool :=
  existsb (fun k => truthy (JsObject.get pk k)) (JsObject.keys pk).

(** The property key a possibly null [myPlayerId] is converted to. *)
Definition propertyKey (i : option string) : string :=
  match i with Some s => s | None => "null" end.

(** [movementPrediction.enabled] is [false] and never assigned, so the
    function returns at its first line. *)
Definition updateMovementPrediction (w : World) : World := w.

Definition handleServerMessage (message : ServerMessage) (w : World) : World :=
  match message with
  | JoinGame success playerId snapshot snapshotAvatars error =>
      if success then
        let g := mkGameState (Some playerId) snapshot snapshotAvatars
                   (viewport (gameState w)) in
        let w := with_gameState g w in
        let w := preloadAvatarImages w in
        let w := centerViewportOnMyAvatar w in
        console_log "Joined game successfully:" w
      else console_error "Failed to join game:" error w
  | PlayerJoined player avatar =>
      let g := gameState w in
      let w := with_gameState
                 (with_players (<[player_id player := player]> (players g)) g) w in
      match avatar with
      | Some a =>
          let g := gameState w in
          let w := with_gameState
                     (with_avatars (JsObject.set (avatars g) (avatar_name a) a) g) w in
          preloadAvatarImages w
      | None => w
      end
  | PlayersMoved moved =>
      let g := gameState w in
      let w := with_gameState (with_players (moved ∪ players g) g) w in
      let w :=
        match moved !! propertyKey (myPlayerId g) with
        | Some myPlayer =>
            let isCurrentlyMoving := somePressed (pressedKeys w) in
            if negb isCurrentlyMoving then centerViewportOnMyAvatar w else w
        | None => w
        end in
      updateMovementPrediction w
  | PlayerLeft playerId =>
      let g := gameState w in
      with_gameState (with_players (delete playerId (players g)) g) w
  | UnknownAction action => console_log "Unknown message:" w
  end.

(** ** Input controller *)

#[global] Instance Direction_eq_dec : EqDecision Direction.
Proof. solve_decision. Defined.

#[global] Instance ReadyState_eq_dec : EqDecision ReadyState.
Proof. solve_decision. Defined.

(** The table of key names. [movementKeys[key]] is looked up among the
    properties written in the literal: no key name a keyboard reports is
    the name of a property inherited from [Object.prototype]. *)
Definition movementKeys : JsObject.t Direction :=
  [ ("ArrowUp", up); ("w", up); ("W", up);
    ("ArrowDown", down); ("s", down); ("S", down);
    ("ArrowLeft", left); ("a", left); ("A", left);
    ("ArrowRight", right); ("d", right); ("D", right) ].

(** The guard [!ws || ws.readyState !== WebSocket.OPEN]. *)
Definition notOpen (w : World) : bool :=
  match ws w with
  | None => true
  | Some s => negb (bool_decide (readyState s = OPEN))
  end.

(** [ws.send(JSON.stringify(m))]: a [TypeError] when [ws] is null; the
    socket throws while connecting, transmits when open and discards the
    data once it is closing or closed. *)
Definition ws_send (m : OutMessage) (w : World) : option World :=
  match ws w with
  | None => None
  | Some s =>
      match readyState s with
      | CONNECTING => None
      | OPEN => Some (with_transmitted (transmitted w ++ [m]) w)
      | CLOSING | CLOSED => Some w
      end
  end.

Definition sendMoveCommand (direction : option Direction) (w : World)
  : option World :=
  if notOpen w then Some w else ws_send (MsgMove direction) w.

Definition sendStopCommand (w : World) : option World :=
  if notOpen w then Some w else ws_send MsgStop w.

Definition getPrimaryDirection (directions : list Direction) : option Direction :=
  if existsb (fun d => bool_decide (d = left)) directions
     || existsb (fun d => bool_decide (d = right)) directions
  then find (fun d => bool_decide (d = left) || bool_decide (d = right)) directions
  else head directions.

(** The array [directions] built by [sendMovementCommand], in the order of
    [Object.keys(pressedKeys)]. *)
Definition heldDirections (pk : JsObject.t bool) : list Direction :=
  omap (fun key =>
          if truthy (JsObject.get pk key) then JsObject.get movementKeys key
          else None)
       (JsObject.keys pk).

Definition sendMovementCommand (w : World) : option World :=
  if notOpen w then Some w
  else
    let directions := heldDirections (pressedKeys w) in
    if (List.length directions =? 0)%nat then Some w
    else if (1 <? List.length directions)%nat
         then sendMoveCommand (getPrimaryDirection directions) w
         else sendMoveCommand (head directions) w.

(** [now] is the value [Date.now()] returns in this call. *)
Definition startMovementLoop (now : Z) (w : World) : option World :=
  match movementInterval w with
  | Some _ => Some w
  | None =>
      w ← sendMovementCommand w;
      let w := with_lastMovementTime now w in
      Some (with_nextTimer (Pos.succ (nextTimer w))
              (with_movementInterval (Some (nextTimer w)) w))
  end.

(** The callback given to [setInterval]. *)
Definition movementTick (now : Z) (w : World) : option World :=
  if (now - lastMovementTime w >=? MOVEMENT_INTERVAL)%Z
  then w ← sendMovementCommand w; Some (with_lastMovementTime now w)
  else Some w.

Definition stopMovementLoop (w : World) : World :=
  match movementInterval w with
  | Some _ => with_movementInterval None w
  | None => w
  end.

Definition keydown (key : string) (now : Z) (w : World) : option World :=
  match JsObject.get movementKeys key with
  | Some _ =>
      if negb (truthy (JsObject.get (pressedKeys w) key))
      then startMovementLoop now
             (with_pressedKeys (JsObject.set (pressedKeys w) key true) w)
      else Some w
  | None => Some w
  end.

Definition keyup (key : string) (w : World) : option World :=
  match JsObject.get movementKeys key with
  | Some _ =>
      let w := with_pressedKeys (JsObject.set (pressedKeys w) key false) w in
      let hasMovementKeys := somePressed (pressedKeys w) in
      if negb hasMovementKeys then sendStopCommand (stopMovementLoop w)
      else Some w
  | None => Some w
  end.

(** ** Connection life cycle and the event loop *)

Definition connectToServer (w : World) : World :=
  with_ws (Some (mkWebSocket CONNECTING)) w.

Definition ws_onopen (w : World) : option World :=
  ws_send (MsgJoinGame "Tim") (console_log "Connected to game server" w).

Definition ws_onclose (w : World) : World :=
  console_log "Disconnected from game server" w.

Inductive Event : Type :=
| WorldImageLoad (innerWidth innerHeight : Q)
| Resize (innerWidth innerHeight : Q)
| SocketOpen
| SocketClose
| Message (message : ServerMessage)
| KeyDown (key : string) (now : Z)
| KeyUp (key : string)
| IntervalTick (now : Z).

(** One turn of the event loop. The browser sets [readyState] before it
    calls [onopen] and [onclose], and calls the interval callback only
    while the interval has not been cleared. *)
Definition step (e : Event) (w : World) : option World :=
  match e with
  | WorldImageLoad innerWidth innerHeight =>
      Some (connectToServer (setupCanvas innerWidth innerHeight w))
  | Resize innerWidth innerHeight => Some (setupCanvas innerWidth innerHeight w)
  | SocketOpen =>
      match ws w with
      | Some _ => ws_onopen (with_ws (Some (mkWebSocket OPEN)) w)
      | None => Some w
      end
  | SocketClose =>
      match ws w with
      | Some _ => Some (ws_onclose (with_ws (Some (mkWebSocket CLOSED)) w))
      | None => Some w
      end
  | Message message => Some (handleServerMessage message w)
  | KeyDown key now => keydown key now w
  | KeyUp key => keyup key w
  | IntervalTick now =>
      match movementInterval w with
      | Some _ => movementTick now w
      | None => Some w
      end
  end.

Fixpoint run (events : list Event) (w : World) : option World :=
  match events with
  | [] => Some w
  | e :: rest => w ← step e w; run rest w
  end.

Definition isMove (m : OutMessage) : bool :=
  match m with MsgMove _ => true | _ => false end.

Definition isStop (m : OutMessage) : bool :=
  match m with MsgStop => true | _ => false end.

(** How many of the messages transmitted so far satisfy [p]. *)
Definition countSent (p : OutMessage -> bool) (w : World) : nat :=
  List.length (List.filter p (transmitted w)).

(** ** Reachable states *)

Inductive reachable : World -> Prop :=
| reachable_init : reachable initialWorld
| reachable_step (e : Event) (w w' : World) :
    reachable w -> step e w = Some w' -> reachable w'.

(** ** Vocabulary of the properties *)

(** A socket that is absent or not open, as the senders test it. *)
Definition disconnected (w : World) : Prop :=
  ws w = None \/ exists s, ws w = Some s /\ readyState s <> OPEN.

(** What a call transmits: the messages appended by it. *)
Definition emits (w w' : World) (out : list OutMessage) : Prop :=
  transmitted w' = transmitted w ++ out.

(** The directions [getPrimaryDirection] prefers. *)
Definition isHorizontal (d : Direction) : bool :=
  bool_decide (d = left) || bool_decide (d = right).

(** The viewport is a sub-rectangle of the world. *)
Definition validViewport (v : Viewport) : Prop :=
  (0 <= viewport_x v)%Q /\
  (viewport_x v <= worldWidth - viewport_width v)%Q /\
  (0 <= viewport_y v)%Q /\
  (viewport_y v <= worldHeight - viewport_height v)%Q.

(** What [sendMovementCommand] and [sendStopCommand] put on the wire. *)
Definition movementCommand (w : World) : list OutMessage :=
  if notOpen w then []
  else match getPrimaryDirection (heldDirections (pressedKeys w)) with
       | Some d => [MsgMove (Some d)]
       | None => []
       end.

Definition stopCommand (w : World) : list OutMessage :=
  if notOpen w then [] else [MsgStop].

(** The key is one of the twelve of [movementKeys]. *)
Definition mapped (key : string) : bool :=
  bool_decide (is_Some (JsObject.get movementKeys key)).

(** The key is recorded as held. *)
Definition held (w : World) (key : string) : bool :=
  truthy (JsObject.get (pressedKeys w) key).




(** What every reachable state satisfies: [pressedKeys] has no repeated
    property, and the interval is running exactly while a key is held. *)
Definition controllerInvariant (w : World) : Prop :=
  List.NoDup (JsObject.keys (pressedKeys w)) /\
  (movementInterval w = None <-> somePressed (pressedKeys w) = false).

(** The interval callbacks of a timer that fires every 50 ms from [t0]:
    [n] ticks at [t0 + 50], ..., [t0 + 50 n], each reading the clock at
    its nominal time. *)
Definition pollTicks (t0 : Z) (n : nat) : list Event :=
  map (fun k : nat => IntervalTick (t0 + 50 * Z.of_nat k)) (seq 1 n).

(** Interval callbacks reading the clock at the given times. *)
Definition ticksAt (readings : list Z) : list Event :=
  map IntervalTick readings.

(** A value the callback [f] leaves alone, whatever the state. *)
Definition settled {A S : Type} (f : A -> S -> A * S) (a : A) : Prop :=
  forall s : S, f a s = (a, s).

(** How a slot relates to what it was before materialization, [imgs] being
    the images created so far: a data string starting with [data:] has
    become an image with that string as source, anything else is the same
    value. *)
Definition materialized (imgs : list string) (before after : Slot) : Prop :=
  match before with
  | Raw base64Data =>
      if String.prefix "data:" base64Data
      then exists h : nat, after = Img h /\ imgs !! h = Some base64Data
      else after = before
  | Img _ => after = before
  end.

Definition framesMaterialized (imgs : list string)
  (before after : JsObject.t (list Slot)) : Prop :=
  Forall2 (fun b a => fst b = fst a /\ Forall2 (materialized imgs) (snd b) (snd a))
          before after.

Definition avatarsMaterialized (imgs : list string)
  (before after : JsObject.t Avatar) : Prop :=
  Forall2 (fun b a =>
             fst b = fst a /\
             avatar_name (snd b) = avatar_name (snd a) /\
             framesMaterialized imgs (avatar_frames (snd b)) (avatar_frames (snd a)))
          before after.

(** ** Sample inputs *)

Definition tim : Player :=
  mkPlayer "p1" "Tim" 1000 1000 south false "default" 0.

Definition ann : Player :=
  mkPlayer "p2" "Ann" 300 400 east true "default" 1.

Definition bob : Player :=
  mkPlayer "p3" "Bob" 1900 40 north false "default" 2.

Definition defaultAvatar : Avatar :=
  mkAvatar "default"
    [ ("north", [Raw "data:image/png;base64,AAAA"; Raw "pending"]);
      ("east", [Raw "data:image/png;base64,BBBB"]) ].

Definition joinOk : ServerMessage :=
  JoinGame true "p1" (<["p1" := tim]> (<["p2" := ann]> (<["p3" := bob]> ∅)))
    [("default", defaultAvatar)] "".

(** The client once the page has loaded in an 800 by 600 window and the
    socket has opened; then once the server has accepted the join. *)
Definition connectedWorld : World :=
  default initialWorld (run [WorldImageLoad 800 600; SocketOpen] initialWorld).

Definition joinedWorld : World :=
  default connectedWorld (step (Message joinOk) connectedWorld).

(** The window is enlarged from 800 by 600 to 1600 by 1200 after the
    join. *)
Definition resizedWorld : World :=
  default joinedWorld (step (Resize 1600 1200) joinedWorld).

(** A key is held on an open socket: the page has loaded, the socket has
    opened and [w] has been pressed at time 1000. *)
Definition movingWorld : World :=
  default connectedWorld (step (KeyDown "w" 1000) connectedWorld).

(** The connection has dropped while the key was held. *)
Definition droppedWorld : World :=
  default movingWorld (step SocketClose movingWorld).

(** The clock read by 24 ticks of the 50 ms interval after a press at
    time 1000, when every fourth callback runs one millisecond late. *)
Definition lateReadings : list Z :=
  [ 1050; 1100; 1151; 1200; 1250; 1300; 1351; 1400;
    1450; 1500; 1551; 1600; 1650; 1700; 1751; 1800;
    1850; 1900; 1951; 2000; 2050; 2100; 2151; 2200 ]%Z.





(** A [players_moved] update for one remote player. *)
Definition annMoved : Player :=
  mkPlayer "p2" "Ann" 332 400 east true "default" 2.


From Stdlib Require Import Lqa.
From stdpp Require Import pretty.

(** ** Vocabulary of the further properties *)

(** Keyboard and timer events, as opposed to what the page and the server
    deliver. *)
Definition isInput (e : Event) : bool :=
  match e with
  | KeyDown _ _ | KeyUp _ | IntervalTick _ => true
  | _ => false
  end.

(** The events whose listener is [setupCanvas], which ends by drawing a
    frame. *)
Definition redraws (e : Event) : bool :=
  match e with
  | WorldImageLoad _ _ | Resize _ _ => true
  | _ => false
  end.

(** The socket is connecting: the only state in which the browser fires
    [open]. *)
Definition connecting (w : World) : bool :=
  match ws w with
  | Some s => match readyState s with CONNECTING => true | _ => false end
  | None => false
  end.

(** What the browser can still deliver from [w] once the world image has
    loaded: its [load] event does not fire again, and [open] fires only on
    a socket that is connecting. *)
Fixpoint deliverable (events : list Event) (w : World) : bool :=
  match events with
  | [] => true
  | e :: rest =>
      match e with
      | WorldImageLoad _ _ => false
      | SocketOpen => connecting w
      | _ => true
      end
      && match step e w with
         | Some w' => deliverable rest w'
         | None => true
         end
  end.

(** The slots [preloadAvatarImages] will replace: strings that start with
    [data:]. *)
Definition isDataSlot (slot : Slot) : bool :=
  match slot with
  | Raw base64Data => String.prefix "data:" base64Data
  | Img _ => false
  end.

Definition dataSlots (avs : JsObject.t Avatar) : nat :=
  list_sum
    (map (fun entry : string * Avatar =>
            list_sum
              (map (fun frames : string * list Slot =>
                      List.length (List.filter isDataSlot (snd frames)))
                   (avatar_frames (snd entry))))
         avs).

(** A second avatar, as a [player_joined] message brings it. *)
Definition knightAvatar : Avatar :=
  mkAvatar "knight"
    [ ("south", [Raw "data:image/png;base64,CCCC"; Raw "data:image/png;base64,DDDD"]) ].

Definition cat : Player :=
  mkPlayer "p4" "Cat" 700 900 south false "knight" 0.

(** Players next to two opposite corners of the world. *)
Definition cornerPlayer : Player :=
  mkPlayer "p1" "Tim" 120 80 south false "default" 0.

Definition farCornerPlayer : Player :=
  mkPlayer "p1" "Tim" 2000 1990 south false "default" 0.

Definition cornerWorld : World :=
  handleServerMessage (PlayersMoved {["p1" := cornerPlayer]}) joinedWorld.

Definition farCornerWorld : World :=
  handleServerMessage (PlayersMoved {["p1" := farCornerPlayer]}) joinedWorld.

(** What a player may still do, and the server and the window still
    deliver, after the connection has dropped. *)
Definition afterDrop : list Event :=
  [ KeyUp "w"; KeyDown "a" 7000; IntervalTick 7150; Message joinOk;
    Resize 1024 768; SocketClose; KeyUp "a" ].

(** Key, timer, message and socket events on an open socket. *)
Definition busySession : list Event :=
  [ KeyDown "w" 1000; IntervalTick 1150; Message joinOk; KeyDown "a" 1160;
    KeyUp "w"; IntervalTick 1300; KeyUp "a"; SocketClose; KeyDown "d" 2000;
    IntervalTick 2150; KeyUp "d" ].

(** ** The renderer

    The drawing functions read the game state and change only what is on
    the page side: the 2D context, the trail particles and the clock they
    read. That side is the record [Screen]; the functions take the [World]
    as an argument and return the new [Screen], or [None] when they throw.

    - [worldImage] is [gameState.worldImage]: [None] before [initGame] has
      created it.
    - Every call on the 2D context is recorded, in order, in [ctx]; an
      assignment to one of its properties is recorded as [setString] or
      [setNumber].
    - An [Image] is still loading or has loaded with its natural size, a
      pair of positive integers; an image that failed to load is outside
      the model.
    - As everywhere in the embedding, numbers are exact rationals where
      the code computes doubles: a value the code rounds, such as the
      height of an avatar, is not rounded here.
    - An avatar is looked up among the avatars received, as everywhere in
      the embedding: a player whose avatar name is not among them and is
      the name of a property of [Object.prototype] is outside the model.
    - [Date.now()] returns [clock n] at its [n]th call.
    - [Object.values(gameState.players)] is an argument of the functions
      that enumerate the players, since [gmap] does not record the order
      in which the entries were added. *)

Inductive ImageStatus : Type :=
| Loading
| Loaded (naturalWidth naturalHeight : positive).

Inductive CtxCall : Type :=
| clearRect (x y w h : Q)
| drawImage9 (sx sy sw sh dx dy dw dh : Q)
| drawImage5 (image : nat) (dx dy dw dh : Q)
| ctx_save
| ctx_restore
| setString (property value : string)
| setNumber (property : string) (value : Q)
| ctx_scale (x y : Q)
| fillRect (x y w h : Q)
| fillText (text : string) (x y : Q)
| strokeText (text : string) (x y : Q)
| beginPath
| ctx_arc (x y radius : Q)
| ctx_fill.

Record Trail : Type := mkTrail {
  trail_x : Q;
  trail_y : Q;
  trail_time : Z;
  trail_alpha : Q
}.

Record Screen : Type := mkScreen {
  canvas_width : Q;
  canvas_height : Q;
  worldImage : option ImageStatus;
  imageStatus : nat -> ImageStatus;
  movementTrails : list Trail;
  ctx : list CtxCall;
  clock : nat -> Z;
  reads : nat
}.

Definition maxTrailLength : nat := 10.

Definition with_movementTrails (trails : list Trail) (s : Screen) : Screen :=
  mkScreen (canvas_width s) (canvas_height s) (worldImage s) (imageStatus s)
    trails (ctx s) (clock s) (reads s).

(** The calls [calls] are made on the context. *)
Definition call (calls : list CtxCall) (s : Screen) : Screen :=
  mkScreen (canvas_width s) (canvas_height s) (worldImage s) (imageStatus s)
    (movementTrails s) (ctx s ++ calls) (clock s) (reads s).

Definition Date_now (s : Screen) : Z * Screen :=
  (clock s (reads s),
   mkScreen (canvas_width s) (canvas_height s) (worldImage s) (imageStatus s)
     (movementTrails s) (ctx s) (clock s) (S (reads s))).

(** [a < b] on numbers. *)
Definition Qlt_bool (a b : Q) : bool := negb (Qle_bool b a).

Definition addMovementTrail (x y : Q) (s : Screen) : Screen :=
  let '(now, s) := Date_now s in
  let trails := movementTrails s ++ [mkTrail x y now 1] in
  let trails :=
    if (maxTrailLength <? List.length trails)%nat then tail trails else trails in
  with_movementTrails trails s.

(** The callback of [movementTrails.forEach] in [drawMovementTrails]; the
    circle goes from angle 0 to [Math.PI * 2]. *)
Definition drawTrail (now : Z) (trailLifetime : Q) (trail : Trail)
  : list CtxCall :=
  let age := inject_Z (now - trail_time trail) in
  let alpha := Qmax 0 (1 - age / trailLifetime) in
  if Qlt_bool 0 alpha
  then [ setNumber "globalAlpha" (alpha * (4 # 10));
         setString "fillStyle" "#4A90E2";
         beginPath;
         ctx_arc (trail_x trail) (trail_y trail) 2;
         ctx_fill ]
  else [].

Definition drawMovementTrails (s : Screen) : Screen :=
  let '(now, s) := Date_now s in
  let trailLifetime : Q := 500%Q in
  let s := call [ctx_save] s in
  let s :=
    if (0 <? List.length (movementTrails s))%nat
    then
      let s := call (flat_map (drawTrail now trailLifetime) (movementTrails s)) s in
      with_movementTrails
        (List.filter
           (fun trail => Qlt_bool (inject_Z (now - trail_time trail)) trailLifetime)
           (movementTrails s))
        s
    else s in
  call [ctx_restore] s.

Definition drawPlayerLabel (username : string) (x y : Q) (isMyPlayer : bool)
  (s : Screen) : Screen :=
  let s := call [ctx_save] s in
  let s :=
    if isMyPlayer
    then call [ setString "fillStyle" "rgba(0, 100, 200, 0.8)";
                fillRect (x - 35) (y - 18) 70 24;
                setString "fillStyle" "white";
                setString "font" "bold 13px Arial";
                setString "strokeStyle" "rgba(0, 0, 0, 0.5)";
                setNumber "lineWidth" 1 ] s
    else call [ setString "fillStyle" "rgba(0, 0, 0, 0.7)";
                fillRect (x - 30) (y - 15) 60 20;
                setString "fillStyle" "white";
                setString "font" "12px Arial" ] s in
  let s := call [ setString "textAlign" "center"; fillText username x (y - 2) ] s in
  let s := if isMyPlayer then call [strokeText username x (y - 2)] s else s in
  call [ctx_restore] s.

Definition facingKey (f : Facing) : string :=
  match f with
  | north => "north"
  | south => "south"
  | east => "east"
  | west => "west"
  end.

(** [player.id === gameState.myPlayerId]. *)
Definition isMyPlayer (w : World) (player : Player) : bool :=
  match myPlayerId (gameState w) with
  | Some i => String.eqb (player_id player) i
  | None => false
  end.

(** The test that skips a player outside the canvas and its margin. *)
Definition outsideViewport (screenX screenY : Q) (s : Screen) : bool :=
  Qlt_bool screenX (-50) || Qlt_bool (canvas_width s + 50) screenX
  || Qlt_bool screenY (-50) || Qlt_bool (canvas_height s + 50) screenY.

(** The array of frames the player is drawn from: west uses the frames of
    east. [None] is [undefined]. *)
Definition framesFor (avatar : Avatar) (player : Player) : option (list Slot) :=
  match player_facing player with
  | west => JsObject.get (avatar_frames avatar) "east"
  | f => JsObject.get (avatar_frames avatar) (facingKey f)
  end.

Definition drawPlayer (player : Player) (w : World) (s : Screen)
  : option Screen :=
  match JsObject.get (avatars (gameState w)) (player_avatar player) with
  | None => Some s
  | Some avatar =>
      let screenX := (player_x player - viewport_x (viewport (gameState w)))%Q in
      let screenY := (player_y player - viewport_y (viewport (gameState w)))%Q in
      if outsideViewport screenX screenY s then Some s
      else
        let s :=
          if isMyPlayer w player && player_isMoving player
          then addMovementTrail screenX screenY s else s in
        match framesFor avatar player with
        | None => None
        | Some frames =>
            match frames !! player_animationFrame player with
            | Some (Img image) =>
                match imageStatus s image with
                | Loading => Some s
                | Loaded naturalWidth naturalHeight =>
                    let avatarSize : Q := 64%Q in
                    let aspectRatio :=
                      (inject_Z (Zpos naturalWidth)
                       / inject_Z (Zpos naturalHeight))%Q in
                    let width := avatarSize in
                    let height := (avatarSize / aspectRatio)%Q in
                    let s := call [ ctx_save;
                                    setString "shadowColor" "rgba(0, 0, 0, 0.3)";
                                    setNumber "shadowBlur" 4;
                                    setNumber "shadowOffsetX" 2;
                                    setNumber "shadowOffsetY" 2 ] s in
                    let s :=
                      match player_facing player with
                      | west =>
                          call [ ctx_scale (-1) 1;
                                 drawImage5 image (- screenX - width / 2)
                                   (screenY - height / 2) width height ] s
                      | _ =>
                          call [ drawImage5 image (screenX - width / 2)
                                   (screenY - height / 2) width height ] s
                      end in
                    let s := call [ctx_restore] s in
                    Some (drawPlayerLabel (player_username player) screenX
                            (screenY - height / 2 - 10) (isMyPlayer w player) s)
                end
            | Some (Raw _) | None => Some s
            end
        end
  end.

(** [Object.values(gameState.players).forEach(drawPlayer)], for the
    enumeration [values] of the players. *)
Fixpoint drawPlayers (values : list Player) (w : World) (s : Screen)
  : option Screen :=
  match values with
  | [] => Some s
  | player :: rest => s ← drawPlayer player w s; drawPlayers rest w s
  end.

Definition drawUI (w : World) (s : Screen) : Screen :=
  let connected := negb (notOpen w) in
  let s := call [ ctx_save;
                  setString "fillStyle" (if connected then "#4CAF50" else "#F44336");
                  fillRect 10 10 12 12;
                  setString "fillStyle" "white";
                  setString "font" "12px Arial";
                  fillText (if connected then "Connected" else "Disconnected") 30 20 ] s in
  let playerCount := size (players (gameState w)) in
  call [ fillText ("Players: " +:+ pretty playerCount) 10 40;
         setString "fillStyle" "rgba(0, 0, 0, 0.7)";
         fillText "Use WASD or Arrow Keys to move" 10 (canvas_height s - 20);
         ctx_restore ] s.

Definition draw (values : list Player) (w : World) (s : Screen) : option Screen :=
  match worldImage s with
  | None | Some Loading => Some s
  | Some (Loaded _ _) =>
      let v := viewport (gameState w) in
      let s := call [ clearRect 0 0 (canvas_width s) (canvas_height s);
                      drawImage9 (viewport_x v) (viewport_y v)
                        (viewport_width v) (viewport_height v)
                        0 0 (canvas_width s) (canvas_height s) ] s in
      let s := drawMovementTrails s in
      s ← drawPlayers values w s;
      Some (drawUI w s)
  end.

(** The calls made on the context since [s], the saves minus the restores
    among them, and the circles drawn. *)
Definition newCalls (s s' : Screen) : list CtxCall :=
  drop (List.length (ctx s)) (ctx s').

Definition nesting (calls : list CtxCall) : Z :=
  fold_right (fun c n => match c with
                         | ctx_save => n + 1
                         | ctx_restore => n - 1
                         | _ => n
                         end%Z) 0%Z calls.

Definition circles (calls : list CtxCall) : list (Q * Q) :=
  omap (fun c => match c with ctx_arc x y _ => Some (x, y) | _ => None end) calls.


(** What no drawing function changes: the canvas, the images and the
    clock. *)
Definition samePage (s s' : Screen) : Prop :=
  canvas_width s' = canvas_width s /\
  canvas_height s' = canvas_height s /\
  worldImage s' = worldImage s /\
  imageStatus s' = imageStatus s /\
  clock s' = clock s.

(** The position of a player on the canvas. *)
Definition screenX (player : Player) (w : World) : Q :=
  player_x player - viewport_x (viewport (gameState w)).

Definition screenY (player : Player) (w : World) : Q :=
  player_y player - viewport_y (viewport (gameState w)).

(** An 800 by 600 canvas on which nothing has been drawn, with the world
    image and every avatar image loaded, and a clock that advances 16 ms
    between two readings. *)
Definition freshScreen : Screen :=
  mkScreen 800 600 (Some (Loaded 2048 2048)) (fun _ => Loaded 32 48) [] []
    (fun n => (5000 + 16 * Z.of_nat n)%Z) 0.

(** The local player walking west, and the world in which the server has
    reported it. *)
Definition timWest : Player :=
  mkPlayer "p1" "Tim" 1000 1000 west true "default" 0.

Definition walkingWorld : World :=
  handleServerMessage (PlayersMoved {["p1" := timWest]}) joinedWorld.

(** Three particles created at 4000, 4600 and 4900, seen at time 5000. *)
Definition trailScreen : Screen :=
  with_movementTrails
    [mkTrail 10 20 4000 1; mkTrail 30 40 4600 1; mkTrail 50 60 4900 1]
    freshScreen.

(** How a drawing function may change the screen: it leaves the canvas,
    the images and the clock alone, it only adds calls to the context, with
    as many restores as saves, and it keeps the trail within its bound. *)
Definition drawn (s s' : Screen) : Prop :=
  samePage s s' /\
  (exists calls : list CtxCall, ctx s' = ctx s ++ calls /\ nesting calls = 0%Z) /\
  ((List.length (movementTrails s) <= maxTrailLength)%nat ->
   (List.length (movementTrails s') <= maxTrailLength)%nat).


(** The slot the player would be drawn from holds nothing that can be
    drawn yet: no slot at that index, a string, or an image still
    loading. *)
Definition notReady (s : Screen) (frames : list Slot) (index : nat) : Prop :=
  match frames !! index with
  | None => True
  | Some (Raw _) => True
  | Some (Img image) => imageStatus s image = Loading
  end.

(** The local player facing south, a direction for which the avatar of the
    sample snapshot has no frames. *)
Definition southWorld : World := joinedWorld.

(** A screen on which the first avatar image is still loading. *)
Definition loadingScreen : Screen :=
  mkScreen 800 600 (Some (Loaded 2048 2048))
    (fun image => if (image =? 1)%nat then Loading else Loaded 32 48) [] []
    (fun n => (5000 + 16 * Z.of_nat n)%Z) 0.

(** * Properties *)

(** ** Lookup and update of enumerated objects *)

Section JsObjectFacts.
Context {V : Type}.
Implicit Types (o : JsObject.t V) (k : string) (v : V).

Lemma get_set_eq o k v : JsObject.get (JsObject.set o k v) k = Some v.
Proof.
  induction o as [|[k' v'] rest IH]; simpl.
  - by rewrite String.eqb_refl.
  - destruct (String.eqb k' k) eqn:E; simpl; rewrite E; auto.
Qed.

Lemma get_set_ne o k k' v :
  k <> k' -> JsObject.get (JsObject.set o k v) k' = JsObject.get o k'.
Proof.
  intros Hne. induction o as [|[k0 v0] rest IH]; simpl.
  - destruct (String.eqb_spec k k'); congruence.
  - destruct (String.eqb_spec k0 k) as [->|]; simpl.
    + destruct (String.eqb_spec k k'); congruence.
    + by rewrite IH.
Qed.

Lemma get_Some_keys o k v :
  JsObject.get o k = Some v -> In k (JsObject.keys o).
Proof.
  induction o as [|[k' v'] rest IH]; simpl; [discriminate|].
  destruct (String.eqb_spec k' k); auto.
Qed.

Lemma in_keys_set o k v k' :
  In k' (JsObject.keys (JsObject.set o k v)) <->
  k' = k \/ In k' (JsObject.keys o).
Proof.
  induction o as [|[k0 v0] rest IH]; simpl.
  - intuition.
  - destruct (String.eqb_spec k0 k) as [->|]; simpl; [intuition|].
    rewrite IH. intuition.
Qed.

Lemma NoDup_keys_set o k v :
  List.NoDup (JsObject.keys o) -> List.NoDup (JsObject.keys (JsObject.set o k v)).
Proof.
  induction o as [|[k0 v0] rest IH]; simpl; intros Hnd.
  - constructor; [intros []|constructor].
  - destruct (String.eqb_spec k0 k) as [->|Hne]; simpl; [assumption|].
    inversion Hnd as [|? ? Hnotin Hrest]; subst.
    constructor; [|by apply IH].
    rewrite in_keys_set. intros [->|]; congruence.
Qed.

End JsObjectFacts.

(** ** Traces of the event loop *)

Lemma reachable_run (events : list Event) (w w' : World) :
  reachable w -> run events w = Some w' -> reachable w'.
Proof.
  revert w. induction events as [|e rest IH]; simpl; intros w Hw Hrun.
  - by injection Hrun as <-.
  - destruct (step e w) as [w1|] eqn:Hstep; simpl in Hrun; [|done].
    eapply IH; [|exact Hrun]. by eapply reachable_step.
Qed.

Lemma run_app (events1 events2 : list Event) (w : World) :
  run (events1 ++ events2) w = w1 ← run events1 w; run events2 w1.
Proof.
  revert w. induction events1 as [|e rest IH]; simpl; intros w; [done|].
  destruct (step e w); simpl; [apply IH|done].
Qed.

Lemma reachable_connectedWorld : reachable connectedWorld.
Proof.
  apply (reachable_run [WorldImageLoad 800 600; SocketOpen] initialWorld);
    [constructor|reflexivity].
Qed.

Lemma reachable_movingWorld : reachable movingWorld.
Proof.
  apply (reachable_step (KeyDown "w" 1000) connectedWorld);
    [apply reachable_connectedWorld|reflexivity].
Qed.

Lemma reachable_joinedWorld : reachable joinedWorld.
Proof.
  apply (reachable_step (Message joinOk) connectedWorld);
    [apply reachable_connectedWorld|reflexivity].
Qed.

(** ** The set of held keys *)

Lemma somePressed_true (pk : JsObject.t bool) :
  somePressed pk = true <-> exists k, truthy (JsObject.get pk k) = true.
Proof.
  unfold somePressed. rewrite existsb_exists. split.
  - intros (k & _ & Hk). eauto.
  - intros (k & Hk). exists k. split; [|assumption].
    destruct (JsObject.get pk k) as [b|] eqn:E; [|discriminate].
    eapply get_Some_keys; eauto.
Qed.

Lemma somePressed_false (pk : JsObject.t bool) :
  somePressed pk = false <-> forall k, truthy (JsObject.get pk k) = false.
Proof.
  split.
  - intros Hn k. destruct (truthy (JsObject.get pk k)) eqn:E; [|reflexivity].
    assert (somePressed pk = true) by (apply somePressed_true; eauto).
    congruence.
  - intros Hall. destruct (somePressed pk) eqn:E; [|reflexivity].
    apply somePressed_true in E as (k & Hk). rewrite Hall in Hk. discriminate.
Qed.

Lemma somePressed_set_true (pk : JsObject.t bool) (key : string) :
  somePressed (JsObject.set pk key true) = true.
Proof. apply somePressed_true. exists key. by rewrite get_set_eq. Qed.

Lemma truthy_set_false (pk : JsObject.t bool) (key k : string) :
  truthy (JsObject.get pk key) = false ->
  truthy (JsObject.get (JsObject.set pk key false) k) = truthy (JsObject.get pk k).
Proof.
  intros Hkey. destruct (decide (key = k)) as [<-|Hne].
  - by rewrite get_set_eq, Hkey.
  - by rewrite get_set_ne.
Qed.

Lemma somePressed_set_false_unheld (pk : JsObject.t bool) (key : string) :
  truthy (JsObject.get pk key) = false ->
  somePressed (JsObject.set pk key false) = somePressed pk.
Proof.
  intros Hkey. apply eq_true_iff_eq. rewrite !somePressed_true.
  split; intros (k & Hk); exists k.
  - by rewrite truthy_set_false in Hk.
  - by rewrite truthy_set_false.
Qed.

Lemma somePressed_set_false_mono (pk : JsObject.t bool) (key : string) :
  somePressed (JsObject.set pk key false) = true -> somePressed pk = true.
Proof.
  rewrite !somePressed_true. intros (k & Hk). exists k.
  destruct (decide (key = k)) as [<-|Hne].
  - rewrite get_set_eq in Hk. discriminate.
  - by rewrite get_set_ne in Hk.
Qed.

Lemma omap_single {A : Type} (l : list string) (key : string) (a : A) :
  List.NoDup l -> In key l ->
  omap (fun k => if decide (k = key) then Some a else None) l = [a].
Proof.
  induction l as [|k l IH]; simpl; intros Hnd Hin; [contradiction|].
  inversion Hnd as [|? ? Hnotin Hrest]; subst.
  destruct (decide (k = key)) as [->|Hne].
  - f_equal. clear IH Hin Hrest Hnd.
    induction l as [|k' l IH]; simpl; [reflexivity|].
    destruct (decide (k' = key)) as [->|]; [exfalso; apply Hnotin; by left|].
    apply IH. intros Hin. apply Hnotin. by right.
  - destruct Hin as [|Hin]; [congruence|]. by apply IH.
Qed.

(** Pressing a key while none is held leaves exactly its direction in the
    array [sendMovementCommand] builds. *)
Lemma heldDirections_first_key (pk : JsObject.t bool) (key : string) (d : Direction) :
  List.NoDup (JsObject.keys pk) ->
  somePressed pk = false ->
  JsObject.get movementKeys key = Some d ->
  heldDirections (JsObject.set pk key true) = [d].
Proof.
  intros Hnd Hidle Hd. unfold heldDirections.
  rewrite <- (omap_single (JsObject.keys (JsObject.set pk key true)) key d).
  - apply list_omap_ext, Forall2_same_length_lookup_2; [done|].
    intros i k k' Hk Hk'. assert (k = k') as <- by congruence.
    destruct (decide (k = key)) as [->|Hne].
    + by rewrite get_set_eq.
    + rewrite get_set_ne by congruence.
      by rewrite (proj1 (somePressed_false pk) Hidle).
  - by apply NoDup_keys_set.
  - apply in_keys_set. by left.
Qed.

(** ** Outbound messages *)

Lemma notOpen_false (w : World) :
  notOpen w = false <-> ws w = Some (mkWebSocket OPEN).
Proof.
  unfold notOpen. destruct (ws w) as [[r]|]; simpl; [|split; discriminate].
  destruct r; simpl; split; intros H; try discriminate; try reflexivity;
    inversion H.
Qed.

Lemma notOpen_true (w : World) : notOpen w = true <-> disconnected w.
Proof.
  unfold notOpen, disconnected. destruct (ws w) as [[r]|]; simpl.
  - destruct r; simpl; split; intros H; try discriminate; try reflexivity.
    + right. eexists; split; [reflexivity|discriminate].
    + destruct H as [|(s & [= <-] & Hr)]; [discriminate|]. by destruct Hr.
    + right. eexists; split; [reflexivity|discriminate].
    + right. eexists; split; [reflexivity|discriminate].
  - split; [by left|reflexivity].
Qed.

Lemma ws_send_open (m : OutMessage) (w : World) :
  notOpen w = false ->
  ws_send m w = Some (with_transmitted (transmitted w ++ [m]) w).
Proof. intros H%notOpen_false. unfold ws_send. by rewrite H. Qed.

Lemma getPrimaryDirection_first (directions : list Direction) :
  getPrimaryDirection directions =
  match find isHorizontal directions with
  | Some d => Some d
  | None => head directions
  end.
Proof.
  unfold getPrimaryDirection.
  destruct (find isHorizontal directions) as [d|] eqn:Hfind.
  - assert (existsb (fun d => bool_decide (d = left)) directions
            || existsb (fun d => bool_decide (d = right)) directions = true) as ->.
    { apply find_some in Hfind as [Hin Hh].
      unfold isHorizontal in Hh. apply orb_true_iff in Hh as [Hh|Hh];
        apply orb_true_iff; [left|right]; apply existsb_exists; eauto. }
    exact Hfind.
  - assert (existsb (fun d => bool_decide (d = left)) directions
            || existsb (fun d => bool_decide (d = right)) directions = false) as ->.
    { apply orb_false_iff; split; apply not_true_is_false;
        intros (d & Hin & Hd)%existsb_exists;
        pose proof (find_none _ _ Hfind d Hin) as Hn;
        unfold isHorizontal in Hn; rewrite Hd in Hn; simpl in Hn;
        try discriminate; by rewrite orb_true_r in Hn. }
    reflexivity.
Qed.

Lemma getPrimaryDirection_nonempty (d : Direction) (rest : list Direction) :
  exists d', getPrimaryDirection (d :: rest) = Some d'.
Proof.
  rewrite getPrimaryDirection_first.
  destruct (find isHorizontal (d :: rest)); simpl; eauto.
Qed.

(** [sendMovementCommand] transmits the one direction [getPrimaryDirection]
    resolves from the held keys, or nothing. *)
Lemma sendMovementCommand_eq (w : World) :
  sendMovementCommand w =
  Some (if notOpen w then w
        else match getPrimaryDirection (heldDirections (pressedKeys w)) with
             | Some d => with_transmitted (transmitted w ++ [MsgMove (Some d)]) w
             | None => w
             end).
Proof.
  unfold sendMovementCommand, sendMoveCommand.
  destruct (notOpen w) eqn:Hopen; [reflexivity|].
  destruct (heldDirections (pressedKeys w)) as [|d [|d' rest]] eqn:Hds; simpl.
  - reflexivity.
  - rewrite ws_send_open by assumption.
    rewrite getPrimaryDirection_first. by destruct d.
  - destruct (getPrimaryDirection_nonempty d (d' :: rest)) as [d0 ->].
    by rewrite ws_send_open.
Qed.

Lemma sendStopCommand_eq (w : World) :
  sendStopCommand w =
  Some (if notOpen w then w else with_transmitted (transmitted w ++ [MsgStop]) w).
Proof.
  unfold sendStopCommand. destruct (notOpen w) eqn:Hopen; [reflexivity|].
  by rewrite ws_send_open.
Qed.

(** C10. Whenever the socket is null or not in the OPEN state,
    [sendMoveCommand], [sendStopCommand] and [sendMovementCommand] return
    normally (no exception) and leave the whole state, and so the list of
    transmitted messages, exactly as it was. *)
Theorem disconnected_send_discarded (direction : option Direction) (w : World) :
  disconnected w ->
  sendMoveCommand direction w = Some w /\
  sendStopCommand w = Some w /\
  sendMovementCommand w = Some w.
Proof.
  intros H%notOpen_true.
  unfold sendMoveCommand, sendStopCommand, sendMovementCommand.
  by rewrite H.
Qed.

Lemma disconnected_send_discarded_witness :
  disconnected (connectToServer initialWorld) /\
  sendMoveCommand (Some left) (connectToServer initialWorld)
    = Some (connectToServer initialWorld) /\
  sendStopCommand (connectToServer initialWorld)
    = Some (connectToServer initialWorld) /\
  sendMovementCommand (connectToServer initialWorld)
    = Some (connectToServer initialWorld).
Proof.
  assert (disconnected (connectToServer initialWorld)) as Hd.
  { right. exists (mkWebSocket CONNECTING). split; [reflexivity|discriminate]. }
  split; [exact Hd|].
  exact (disconnected_send_discarded (Some left) (connectToServer initialWorld) Hd).
Defined.

(** The guard is what prevents the exception: on a socket that is still
    connecting, or absent, [ws.send] itself throws. *)
Example ws_send_throws_unguarded :
  ws_send MsgStop (connectToServer initialWorld) = None /\
  ws_send MsgStop initialWorld = None.
Proof. split; reflexivity. Qed.

(** ** Inbound messages *)

Lemma centerViewportOnMyAvatar_frame (w : World) :
  let w' := centerViewportOnMyAvatar w in
  myPlayerId (gameState w') = myPlayerId (gameState w) /\
  players (gameState w') = players (gameState w) /\
  avatars (gameState w') = avatars (gameState w) /\
  ws w' = ws w /\ pressedKeys w' = pressedKeys w /\
  movementInterval w' = movementInterval w /\
  lastMovementTime w' = lastMovementTime w /\
  images w' = images w /\ console w' = console w /\
  transmitted w' = transmitted w.
Proof.
  unfold centerViewportOnMyAvatar.
  destruct (myPlayerId (gameState w)) as [pid|] eqn:Hid; simpl; [|by rewrite Hid].
  destruct (String.eqb pid ""); simpl; [by rewrite Hid|].
  destruct (players (gameState w) !! pid); simpl; by rewrite ?Hid.
Qed.

Lemma preloadAvatarImages_frame (w : World) :
  let w' := preloadAvatarImages w in
  myPlayerId (gameState w') = myPlayerId (gameState w) /\
  players (gameState w') = players (gameState w) /\
  avatars (gameState w') = fst (preloadAvatars (avatars (gameState w)) (images w)) /\
  images w' = snd (preloadAvatars (avatars (gameState w)) (images w)) /\
  viewport (gameState w') = viewport (gameState w) /\
  ws w' = ws w /\ pressedKeys w' = pressedKeys w /\
  movementInterval w' = movementInterval w /\
  lastMovementTime w' = lastMovementTime w /\
  console w' = console w /\ transmitted w' = transmitted w.
Proof.
  unfold preloadAvatarImages.
  by destruct (preloadAvatars (avatars (gameState w)) (images w)).
Qed.

(** C9. A [join_game] message with [success: false] only logs the error:
    the local id, the player mapping, the avatar mapping and everything else
    in the state stay as they were, so a store that was empty stays empty.
    With [success: true] the local id is recorded and the player and avatar
    mappings are those of the snapshot, once its frames are materialized. *)
Theorem join_failure_keeps_store
  (playerId error : string) (snapshot : gmap string Player)
  (snapshotAvatars : JsObject.t Avatar) (w : World) :
  let failed := handleServerMessage
                  (JoinGame false playerId snapshot snapshotAvatars error) w in
  let joined := handleServerMessage
                  (JoinGame true playerId snapshot snapshotAvatars error) w in
  failed = console_error "Failed to join game:" error w /\
  gameState failed = gameState w /\
  console failed = console w ++ [ConsoleError "Failed to join game:" error] /\
  gameState (handleServerMessage
               (JoinGame false playerId snapshot snapshotAvatars error)
               connectedWorld)
    = mkGameState None ∅ JsObject.empty (mkViewport 0 0 800 600) /\
  myPlayerId (gameState joined) = Some playerId /\
  players (gameState joined) = snapshot /\
  avatars (gameState joined) = fst (preloadAvatars snapshotAvatars (images w)).
Proof.
  simpl. repeat split.
  all: match goal with |- context [centerViewportOnMyAvatar ?x] =>
         pose proof (centerViewportOnMyAvatar_frame x) as Hc end.
  all: pose proof (preloadAvatarImages_frame
                     (with_gameState
                        (mkGameState (Some playerId) snapshot snapshotAvatars
                           (viewport (gameState w))) w)) as Hp.
  all: simpl in Hc, Hp; destruct Hc as (Hc1 & Hc2 & Hc3 & _);
       destruct Hp as (Hp1 & Hp2 & Hp3 & _); congruence.
Qed.

(** C1. The [players_moved] branch merges shallowly: the player mapping
    becomes the update laid over the old mapping, so an id absent from the
    update keeps its entry and an id present in it gets exactly the entry of
    the update, with no field taken from the old one. *)
Theorem players_moved_shallow_merge (moved : gmap string Player) (w : World) :
  let w' := handleServerMessage (PlayersMoved moved) w in
  players (gameState w') = moved ∪ players (gameState w) /\
  forall id : string,
    players (gameState w') !! id =
    match moved !! id with
    | Some updated => Some updated
    | None => players (gameState w) !! id
    end.
Proof.
  assert (players (gameState (handleServerMessage (PlayersMoved moved) w))
          = moved ∪ players (gameState w)) as Hp.
  { simpl. unfold updateMovementPrediction.
    destruct (moved !! propertyKey (myPlayerId (gameState w))); [|reflexivity].
    destruct (somePressed (pressedKeys w)); simpl; [reflexivity|].
    match goal with |- context [centerViewportOnMyAvatar ?x] =>
      pose proof (centerViewportOnMyAvatar_frame x) as Hc end.
    simpl in Hc. apply Hc. }
  simpl. split; [exact Hp|]. intros id. simpl in Hp. rewrite Hp.
  destruct (moved !! id) as [p|] eqn:E.
  - by apply lookup_union_Some_l.
  - by apply lookup_union_r.
Qed.

(** The mapping with ids p1, p2, p3 and an update holding only p2: p1 and
    p3 keep their entries and p2 has the entry of the update. *)
Example players_moved_sample :
  let w' := handleServerMessage (PlayersMoved {["p2" := annMoved]}) joinedWorld in
  players (gameState w') !! "p1" = Some tim /\
  players (gameState w') !! "p2" = Some annMoved /\
  players (gameState w') !! "p3" = Some bob /\
  viewport (gameState w') = viewport (gameState joinedWorld).
Proof. repeat split. Qed.

(** ** Viewport *)

Lemma clamp_bounds (target size extent : Q) :
  (size <= extent)%Q ->
  (0 <= Qmax 0 (Qmin target (extent - size)))%Q /\
  (Qmax 0 (Qmin target (extent - size)) <= extent - size)%Q.
Proof.
  intros Hle. split.
  - apply Q.le_max_l.
  - apply Q.max_lub.
    + apply (Qplus_le_l _ _ size). ring_simplify. exact Hle.
    + apply Q.le_min_r.
Qed.

Lemma viewport_recentered_valid (w : World) (pid : string) (myPlayer : Player) :
  myPlayerId (gameState w) = Some pid ->
  pid <> "" ->
  players (gameState w) !! pid = Some myPlayer ->
  (viewport_width (viewport (gameState w)) <= worldWidth)%Q ->
  (viewport_height (viewport (gameState w)) <= worldHeight)%Q ->
  validViewport (viewport (gameState (centerViewportOnMyAvatar w))).
Proof.
  intros Hid Hne Hp Hw Hh. unfold centerViewportOnMyAvatar, validViewport.
  rewrite Hid. apply String.eqb_neq in Hne. rewrite Hne, Hp. simpl.
  destruct (clamp_bounds
              (player_x myPlayer - viewport_width (viewport (gameState w)) / 2)
              _ _ Hw) as [Hx0 Hx1].
  destruct (clamp_bounds
              (player_y myPlayer - viewport_height (viewport (gameState w)) / 2)
              _ _ Hh) as [Hy0 Hy1].
  repeat split; assumption.
Qed.

(** C2, as the code has it. When the local player is in the player mapping
    and the viewport is no larger than the 2048 by 2048 world,
    [centerViewportOnMyAvatar] leaves the viewport origin within
    [0, worldWidth - width] horizontally and [0, worldHeight - height]
    vertically, whatever the player's position: after every recentering the
    viewport is a sub-rectangle of the world. Its size is not changed. *)
Theorem viewport_clamped (w : World) (pid : string) (myPlayer : Player) :
  myPlayerId (gameState w) = Some pid ->
  pid <> "" ->
  players (gameState w) !! pid = Some myPlayer ->
  (viewport_width (viewport (gameState w)) <= worldWidth)%Q ->
  (viewport_height (viewport (gameState w)) <= worldHeight)%Q ->
  let v' := viewport (gameState (centerViewportOnMyAvatar w)) in
  validViewport v' /\
  viewport_width v' = viewport_width (viewport (gameState w)) /\
  viewport_height v' = viewport_height (viewport (gameState w)).
Proof.
  intros Hid Hne Hp Hw Hh. split.
  - by apply (viewport_recentered_valid w pid myPlayer).
  - unfold centerViewportOnMyAvatar.
    rewrite Hid. apply String.eqb_neq in Hne. by rewrite Hne, Hp.
Qed.

Lemma viewport_clamped_witness :
  let v' := viewport (gameState (centerViewportOnMyAvatar resizedWorld)) in
  validViewport v' /\
  viewport_width v' = viewport_width (viewport (gameState resizedWorld)) /\
  viewport_height v' = viewport_height (viewport (gameState resizedWorld)).
Proof.
  apply (viewport_clamped resizedWorld "p1" tim).
  - reflexivity.
  - discriminate.
  - reflexivity.
  - vm_compute. discriminate.
  - vm_compute. discriminate.
Defined.

(** A resize changes the size of the viewport and keeps its origin: the
    viewport centered at (600, 700) for an 800 by 600 window reaches past
    the right edge of the world once the window is 1600 wide, although the
    local player is present and the window is smaller than the world. *)
Lemma viewport_invalid_after_resize :
  reachable resizedWorld /\
  myPlayerId (gameState resizedWorld) = Some "p1" /\
  players (gameState resizedWorld) !! "p1" = Some tim /\
  (viewport_width (viewport (gameState resizedWorld)) <= worldWidth)%Q /\
  (viewport_height (viewport (gameState resizedWorld)) <= worldHeight)%Q /\
  (viewport_x (viewport (gameState resizedWorld)) == 600)%Q /\
  (worldWidth - viewport_width (viewport (gameState resizedWorld)) == 448)%Q /\
  ~ validViewport (viewport (gameState resizedWorld)).
Proof.
  split.
  { apply (reachable_step (Resize 1600 1200) joinedWorld);
      [apply reachable_joinedWorld|reflexivity]. }
  do 2 (split; [reflexivity|]).
  do 2 (split; [vm_compute; discriminate|]).
  do 2 (split; [reflexivity|]).
  intros (_ & Hx & _). vm_compute in Hx. by apply Hx.
Qed.

(** Between two resizes validity is kept: recentering keeps or establishes
    it, and no inbound message changes the viewport in any other way. *)
Lemma centerViewportOnMyAvatar_valid (w : World) :
  (viewport_width (viewport (gameState w)) <= worldWidth)%Q ->
  (viewport_height (viewport (gameState w)) <= worldHeight)%Q ->
  validViewport (viewport (gameState w)) ->
  validViewport (viewport (gameState (centerViewportOnMyAvatar w))).
Proof.
  intros Hw Hh Hvalid.
  destruct (myPlayerId (gameState w)) as [pid|] eqn:Hid;
    [|unfold centerViewportOnMyAvatar; by rewrite Hid].
  destruct (String.eqb_spec pid "") as [->|Hne];
    [unfold centerViewportOnMyAvatar; by rewrite Hid|].
  destruct (players (gameState w) !! pid) as [myPlayer|] eqn:Hp.
  - by apply (viewport_recentered_valid w pid myPlayer).
  - unfold centerViewportOnMyAvatar. rewrite Hid, Hp.
    by destruct (String.eqb pid "").
Qed.

Lemma handleServerMessage_valid (message : ServerMessage) (w : World) :
  (viewport_width (viewport (gameState w)) <= worldWidth)%Q ->
  (viewport_height (viewport (gameState w)) <= worldHeight)%Q ->
  validViewport (viewport (gameState w)) ->
  validViewport (viewport (gameState (handleServerMessage message w))).
Proof.
  intros Hw Hh Hvalid.
  destruct message as [[] pid snap avs err|p [a|]|moved|pid|action]; simpl;
    try done.
  - match goal with |- context [preloadAvatarImages ?x] =>
      pose proof (preloadAvatarImages_frame x) as (_ & _ & _ & _ & Hv & _) end.
    simpl in Hv. apply centerViewportOnMyAvatar_valid; by rewrite Hv.
  - match goal with |- context [preloadAvatarImages ?x] =>
      pose proof (preloadAvatarImages_frame x) as (_ & _ & _ & _ & Hv & _) end.
    simpl in Hv. by rewrite Hv.
  - unfold updateMovementPrediction.
    destruct (moved !! _); [|done].
    destruct (somePressed (pressedKeys w)); simpl; [done|].
    by apply centerViewportOnMyAvatar_valid.
Qed.

(** The scenario of the join: a player at (1000, 1000) in an 800 by 600
    window puts the viewport at (600, 700); a player near a corner of the
    world is clamped. *)
Example viewport_after_join :
  (viewport_x (viewport (gameState joinedWorld)) == 600)%Q /\
  (viewport_y (viewport (gameState joinedWorld)) == 700)%Q.
Proof. split; reflexivity. Qed.

(** ** Avatar frame materialization *)

Section ForEachSlot.
Context {A S : Type} (f : A -> S -> A * S).

(** Values the callback has produced are left alone by a second pass. *)
Lemma forEach_slot_settles :
  (forall a s, settled f (fst (f a s))) ->
  forall l s, settled (forEach_slot f) (fst (forEach_slot f l s)).
Proof.
  intros Hf l. induction l as [|a l IH]; intros s s'; simpl; [reflexivity|].
  specialize (Hf a s). destruct (f a s) as [a1 s1]; simpl in Hf.
  specialize (IH s1). destruct (forEach_slot f l s1) as [l1 s2]; simpl in *.
  by rewrite Hf, IH.
Qed.

(** A relation between the old and the new value that survives later
    growth of the state holds of every element after the pass. *)
Context (R : S -> A -> A -> Prop) (le : S -> S -> Prop).
Context (le_refl : forall s, le s s).
Context (le_trans : forall s1 s2 s3, le s1 s2 -> le s2 s3 -> le s1 s3).
Context (R_mono : forall s s' a a', le s s' -> R s a a' -> R s' a a').
Context (f_grows : forall a s, le s (snd (f a s))).
Context (f_R : forall a s, R (snd (f a s)) a (fst (f a s))).

Lemma forEach_slot_rel (l : list A) (s : S) :
  le s (snd (forEach_slot f l s)) /\
  Forall2 (R (snd (forEach_slot f l s))) l (fst (forEach_slot f l s)).
Proof.
  revert s. induction l as [|a l IH]; intros s; simpl.
  - split; [apply le_refl|constructor].
  - pose proof (f_grows a s) as Hg. pose proof (f_R a s) as Hr.
    destruct (f a s) as [a1 s1]; simpl in Hg, Hr.
    destruct (IH s1) as [Hg' Hall].
    destruct (forEach_slot f l s1) as [l1 s2]; simpl in *.
    split; [by eapply le_trans|].
    constructor; [by eapply R_mono|assumption].
Qed.

End ForEachSlot.

Lemma preloadSlot_settles (slot : Slot) (imgs : list string) :
  settled preloadSlot (fst (preloadSlot slot imgs)).
Proof.
  intros s. destruct slot as [data|h]; simpl; [|reflexivity].
  destruct (String.prefix "data:" data) eqn:E; simpl; [reflexivity|].
  by rewrite E.
Qed.

Lemma preloadFrameArray_settles (frameArray : list Slot) (imgs : list string) :
  settled preloadFrameArray (fst (preloadFrameArray frameArray imgs)).
Proof. apply forEach_slot_settles, preloadSlot_settles. Qed.

Lemma preloadFrames_settles (frames : JsObject.t (list Slot)) (imgs : list string) :
  settled preloadFrames (fst (preloadFrames frames imgs)).
Proof.
  apply forEach_slot_settles. intros [direction frameArray] s s'.
  pose proof (preloadFrameArray_settles frameArray s s') as H.
  destruct (preloadFrameArray frameArray s) as [arr1 s1]; simpl in *.
  by rewrite H.
Qed.

Lemma preloadAvatar_settles (avatar : Avatar) (imgs : list string) :
  settled preloadAvatar (fst (preloadAvatar avatar imgs)).
Proof.
  intros s. unfold preloadAvatar.
  pose proof (preloadFrames_settles (avatar_frames avatar) imgs s) as H.
  destruct (preloadFrames (avatar_frames avatar) imgs) as [fr1 s1]; simpl in *.
  by rewrite H.
Qed.

Lemma preloadAvatars_settles (avs : JsObject.t Avatar) (imgs : list string) :
  settled preloadAvatars (fst (preloadAvatars avs imgs)).
Proof.
  apply forEach_slot_settles. intros [name avatar] s s'.
  pose proof (preloadAvatar_settles avatar s s') as H.
  destruct (preloadAvatar avatar s) as [a1 s1]; simpl in *.
  by rewrite H.
Qed.

Lemma materialized_mono (imgs imgs' : list string) (before after : Slot) :
  imgs `prefix_of` imgs' ->
  materialized imgs before after -> materialized imgs' before after.
Proof.
  intros Hpre. unfold materialized. destruct before as [data|h]; [|done].
  destruct (String.prefix "data:" data); [|done].
  intros (h & -> & Hh). exists h. split; [done|].
  by eapply prefix_lookup_Some.
Qed.

Lemma preloadSlot_grows (slot : Slot) (imgs : list string) :
  imgs `prefix_of` snd (preloadSlot slot imgs).
Proof.
  destruct slot as [data|h]; simpl; [|done].
  destruct (String.prefix "data:" data); simpl; [|done].
  by apply prefix_app_r.
Qed.

Lemma preloadSlot_materialized (slot : Slot) (imgs : list string) :
  materialized (snd (preloadSlot slot imgs)) slot (fst (preloadSlot slot imgs)).
Proof.
  destruct slot as [data|h]; simpl; [|done].
  destruct (String.prefix "data:" data) eqn:E; simpl; rewrite ?E; [|done].
  exists (List.length imgs). split; [done|]. apply list_lookup_middle. done.
Qed.

Lemma preloadFrameArray_materialized (frameArray : list Slot) (imgs : list string) :
  imgs `prefix_of` snd (preloadFrameArray frameArray imgs) /\
  Forall2 (materialized (snd (preloadFrameArray frameArray imgs)))
          frameArray (fst (preloadFrameArray frameArray imgs)).
Proof.
  apply (forEach_slot_rel preloadSlot materialized (fun s s' => s `prefix_of` s')).
  - done.
  - intros s1 s2 s3 H12 H23. by etrans.
  - apply materialized_mono.
  - apply preloadSlot_grows.
  - apply preloadSlot_materialized.
Qed.

Lemma preloadFrames_materialized (frames : JsObject.t (list Slot)) (imgs : list string) :
  imgs `prefix_of` snd (preloadFrames frames imgs) /\
  framesMaterialized (snd (preloadFrames frames imgs))
                     frames (fst (preloadFrames frames imgs)).
Proof.
  apply (forEach_slot_rel _
           (fun s b a => fst b = fst a /\ Forall2 (materialized s) (snd b) (snd a))
           (fun s s' => s `prefix_of` s')).
  - done.
  - intros s1 s2 s3 H12 H23. by etrans.
  - intros s s' b a Hpre [Hk Hall]. split; [done|].
    eapply Forall2_impl; [exact Hall|]. intros ? ?. by apply materialized_mono.
  - intros [direction frameArray] s.
    pose proof (preloadFrameArray_materialized frameArray s) as [H _].
    by destruct (preloadFrameArray frameArray s).
  - intros [direction frameArray] s.
    pose proof (preloadFrameArray_materialized frameArray s) as [_ H].
    by destruct (preloadFrameArray frameArray s).
Qed.

Lemma preloadAvatars_materialized (avs : JsObject.t Avatar) (imgs : list string) :
  imgs `prefix_of` snd (preloadAvatars avs imgs) /\
  avatarsMaterialized (snd (preloadAvatars avs imgs))
                      avs (fst (preloadAvatars avs imgs)).
Proof.
  apply (forEach_slot_rel _
           (fun s b a =>
              fst b = fst a /\
              avatar_name (snd b) = avatar_name (snd a) /\
              framesMaterialized s (avatar_frames (snd b)) (avatar_frames (snd a)))
           (fun s s' => s `prefix_of` s')).
  - done.
  - intros s1 s2 s3 H12 H23. by etrans.
  - intros s s' b a Hpre (Hk & Hn & Hall). do 2 (split; [done|]).
    eapply Forall2_impl; [exact Hall|]. intros ? ? [Hd Hslots]. split; [done|].
    eapply Forall2_impl; [exact Hslots|]. intros ? ?. by apply materialized_mono.
  - intros [name avatar] s. unfold preloadAvatar.
    pose proof (preloadFrames_materialized (avatar_frames avatar) s) as [H _].
    by destruct (preloadFrames (avatar_frames avatar) s).
  - intros [name avatar] s. unfold preloadAvatar.
    pose proof (preloadFrames_materialized (avatar_frames avatar) s) as [_ H].
    by destruct (preloadFrames (avatar_frames avatar) s).
Qed.

(** C8. [preloadAvatarImages] replaces, in every avatar definition, each
    slot holding a [data:] string by an image whose source is that string
    and leaves every other slot alone; running it a second time changes
    nothing: every slot holds the same image handle and no image is
    created, since an image is not a string. *)
Theorem preloadAvatarImages_idempotent (w : World) :
  let once := preloadAvatarImages w in
  let twice := preloadAvatarImages once in
  avatarsMaterialized (images once)
    (avatars (gameState w)) (avatars (gameState once)) /\
  twice = once /\
  avatars (gameState twice) = avatars (gameState once) /\
  images twice = images once.
Proof.
  assert (preloadAvatarImages (preloadAvatarImages w) = preloadAvatarImages w) as Hidem.
  { pose proof (preloadAvatars_settles (avatars (gameState w)) (images w)) as Hs.
    unfold preloadAvatarImages at 2 3.
    destruct (preloadAvatars (avatars (gameState w)) (images w)) as [avs imgs].
    simpl in Hs. unfold preloadAvatarImages; simpl. by rewrite (Hs imgs). }
  simpl. rewrite Hidem. repeat split.
  pose proof (preloadAvatars_materialized (avatars (gameState w)) (images w)) as [_ H].
  unfold preloadAvatarImages.
  by destruct (preloadAvatars (avatars (gameState w)) (images w)).
Qed.

(** The avatar of the sample snapshot: two data strings are decoded, the
    string that is not a data URI stays, and a second pass creates nothing. *)
Example preload_sample :
  avatars (gameState joinedWorld) =
    [("default",
      mkAvatar "default" [("north", [Img 0; Raw "pending"]); ("east", [Img 1])])] /\
  images joinedWorld = ["data:image/png;base64,AAAA"; "data:image/png;base64,BBBB"] /\
  preloadAvatarImages joinedWorld = joinedWorld.
Proof. repeat split. Qed.

(** ** Input controller *)

Lemma with_transmitted_id (w : World) :
  with_transmitted (transmitted w ++ []) w = w.
Proof. destruct w. unfold with_transmitted; simpl. by rewrite app_nil_r. Qed.

Lemma sendMovementCommand_emits (w : World) :
  sendMovementCommand w =
  Some (with_transmitted (transmitted w ++ movementCommand w) w).
Proof.
  rewrite sendMovementCommand_eq. unfold movementCommand.
  destruct (notOpen w); [by rewrite with_transmitted_id|].
  destruct (getPrimaryDirection _); [done|by rewrite with_transmitted_id].
Qed.

Lemma sendStopCommand_emits (w : World) :
  sendStopCommand w = Some (with_transmitted (transmitted w ++ stopCommand w) w).
Proof.
  rewrite sendStopCommand_eq. unfold stopCommand.
  destruct (notOpen w); [by rewrite with_transmitted_id|done].
Qed.

Lemma startMovementLoop_eq (now : Z) (w : World) :
  startMovementLoop now w =
  Some match movementInterval w with
       | Some _ => w
       | None =>
           with_nextTimer (Pos.succ (nextTimer w))
             (with_movementInterval (Some (nextTimer w))
                (with_lastMovementTime now
                   (with_transmitted (transmitted w ++ movementCommand w) w)))
       end.
Proof.
  unfold startMovementLoop. destruct (movementInterval w); [done|].
  by rewrite sendMovementCommand_emits.
Qed.

Lemma movementTick_eq (now : Z) (w : World) :
  movementTick now w =
  Some (if (now - lastMovementTime w >=? MOVEMENT_INTERVAL)%Z
        then with_lastMovementTime now
               (with_transmitted (transmitted w ++ movementCommand w) w)
        else w).
Proof.
  unfold movementTick. destruct (_ >=? _)%Z; [|done].
  by rewrite sendMovementCommand_emits.
Qed.

Lemma keydown_eq (key : string) (now : Z) (w : World) :
  keydown key now w =
  Some (if mapped key && negb (held w key)
        then
          let w1 := with_pressedKeys (JsObject.set (pressedKeys w) key true) w in
          match movementInterval w with
          | Some _ => w1
          | None =>
              with_nextTimer (Pos.succ (nextTimer w))
                (with_movementInterval (Some (nextTimer w))
                   (with_lastMovementTime now
                      (with_transmitted (transmitted w ++ movementCommand w1) w1)))
          end
        else w).
Proof.
  unfold keydown, mapped, held.
  destruct (JsObject.get movementKeys key) as [d|]; simpl; [|done].
  destruct (truthy (JsObject.get (pressedKeys w) key)); simpl; [done|].
  by rewrite startMovementLoop_eq.
Qed.

Lemma keyup_eq (key : string) (w : World) :
  keyup key w =
  Some (if mapped key
        then
          let w1 := with_pressedKeys (JsObject.set (pressedKeys w) key false) w in
          if somePressed (pressedKeys w1) then w1
          else with_transmitted (transmitted w ++ stopCommand w)
                 (stopMovementLoop w1)
        else w).
Proof.
  unfold keyup, mapped.
  destruct (JsObject.get movementKeys key) as [d|]; simpl; [|done].
  destruct (somePressed (JsObject.set (pressedKeys w) key false)); simpl; [done|].
  rewrite sendStopCommand_emits. unfold stopMovementLoop, stopCommand, notOpen.
  simpl. by destruct (movementInterval w).
Qed.

Lemma handleServerMessage_frame (message : ServerMessage) (w : World) :
  let w' := handleServerMessage message w in
  ws w' = ws w /\ pressedKeys w' = pressedKeys w /\
  movementInterval w' = movementInterval w /\
  lastMovementTime w' = lastMovementTime w /\
  transmitted w' = transmitted w.
Proof.
  destruct message as [[] pid snap avs err|p [a|]|moved|pid|action]; simpl;
    try by repeat split.
  - match goal with |- context [centerViewportOnMyAvatar ?x] =>
      pose proof (centerViewportOnMyAvatar_frame x) as Hc end.
    match goal with |- context [preloadAvatarImages ?x] =>
      pose proof (preloadAvatarImages_frame x) as Hp end.
    simpl in *. intuition congruence.
  - match goal with |- context [preloadAvatarImages ?x] =>
      pose proof (preloadAvatarImages_frame x) as Hp end.
    simpl in *. intuition congruence.
  - unfold updateMovementPrediction.
    destruct (moved !! _); [|by repeat split].
    destruct (somePressed (pressedKeys w)); simpl; [by repeat split|].
    match goal with |- context [centerViewportOnMyAvatar ?x] =>
      pose proof (centerViewportOnMyAvatar_frame x) as Hc end.
    simpl in *. intuition congruence.
Qed.

(** No turn of the event loop ends in an exception. *)
Lemma step_total (e : Event) (w : World) : exists w', step e w = Some w'.
Proof.
  destruct e; simpl; rewrite ?keydown_eq, ?keyup_eq; eauto.
  all: [> destruct (ws w); eauto; unfold ws_onopen; rewrite ws_send_open; eauto
        | destruct (ws w); eauto
        | destruct (movementInterval w); eauto; rewrite movementTick_eq; eauto ].
Qed.

Lemma step_invariant (e : Event) (w w' : World) :
  controllerInvariant w -> step e w = Some w' -> controllerInvariant w'.
Proof.
  unfold controllerInvariant. intros [Hnd Hiff] Hstep.
  destruct e; simpl in Hstep.
  - by injection Hstep as <-.
  - by injection Hstep as <-.
  - destruct (ws w) eqn:Hws; [|by injection Hstep as <-].
    unfold ws_onopen in Hstep. rewrite ws_send_open in Hstep by done.
    by injection Hstep as <-.
  - destruct (ws w); by injection Hstep as <-.
  - injection Hstep as <-.
    destruct (handleServerMessage_frame message w) as (_ & -> & -> & _). done.
  - rewrite keydown_eq in Hstep. injection Hstep as <-.
    destruct (mapped key && negb (held w key)); [|done].
    destruct (movementInterval w) eqn:Hi; simpl.
    + split; [by apply NoDup_keys_set|].
      rewrite Hi, somePressed_set_true. split; discriminate.
    + split; [by apply NoDup_keys_set|].
      rewrite somePressed_set_true. split; discriminate.
  - rewrite keyup_eq in Hstep. injection Hstep as <-.
    destruct (mapped key); [|done]. simpl.
    destruct (somePressed (JsObject.set (pressedKeys w) key false)) eqn:Hsome; simpl.
    + split; [by apply NoDup_keys_set|]. rewrite Hsome.
      apply somePressed_set_false_mono in Hsome.
      split; [|discriminate]. intros Hnone. apply Hiff in Hnone. congruence.
    + unfold stopMovementLoop; simpl.
      destruct (movementInterval w) eqn:Hi; simpl;
        (split; [by apply NoDup_keys_set|rewrite Hsome; intuition]).
  - destruct (movementInterval w) eqn:Hi; [|injection Hstep as <-; by rewrite Hi].
    rewrite movementTick_eq in Hstep. injection Hstep as <-.
    destruct (_ >=? _)%Z; simpl; by rewrite Hi.
Qed.

Lemma reachable_invariant (w : World) : reachable w -> controllerInvariant w.
Proof.
  induction 1 as [|e w w' _ IH Hstep].
  - split; [constructor|done].
  - by eapply step_invariant.
Qed.

Lemma countSent_app (p : OutMessage -> bool) (out : list OutMessage) (w w' : World) :
  emits w w' out ->
  countSent p w' = (countSent p w + List.length (List.filter p out))%nat.
Proof.
  unfold emits, countSent. intros ->.
  by rewrite List.filter_app, List.length_app.
Qed.

Lemma movementCommand_no_stop (w : World) :
  List.filter isStop (movementCommand w) = [].
Proof.
  unfold movementCommand. destruct (notOpen w); [done|].
  by destruct (getPrimaryDirection _).
Qed.

(** C4, as the code has it. An event that finds a movement key held
    either leaves some key held, and then transmits no stop message, or
    takes the controller to no key held, and then clears the movement
    interval and transmits exactly one stop message if the socket is open
    and none if it is not. *)
Theorem stop_once_per_idle_transition (e : Event) (w w' : World) :
  step e w = Some w' ->
  somePressed (pressedKeys w) = true ->
  if somePressed (pressedKeys w')
  then countSent isStop w' = countSent isStop w
  else movementInterval w' = None /\
       emits w w' (if notOpen w then [] else [MsgStop]).
Proof.
  intros Hstep Hheld. destruct e; simpl in Hstep.
  - injection Hstep as <-. simpl. by rewrite Hheld.
  - injection Hstep as <-. simpl. by rewrite Hheld.
  - destruct (ws w); [|injection Hstep as <-; by rewrite Hheld].
    unfold ws_onopen in Hstep. rewrite ws_send_open in Hstep by done.
    injection Hstep as <-. simpl. rewrite Hheld.
    rewrite (countSent_app isStop [MsgJoinGame "Tim"] w); [simpl; lia|done].
  - destruct (ws w); injection Hstep as <-; simpl; by rewrite Hheld.
  - injection Hstep as <-.
    destruct (handleServerMessage_frame message w) as (_ & Hpk & _ & _ & Ht).
    rewrite Hpk, Hheld. unfold countSent. by rewrite Ht.
  - rewrite keydown_eq in Hstep. injection Hstep as <-.
    destruct (mapped key && negb (held w key)); [|by rewrite Hheld].
    destruct (movementInterval w); simpl; rewrite somePressed_set_true; [done|].
    erewrite countSent_app; [|reflexivity]. rewrite movementCommand_no_stop.
    unfold countSent; simpl. lia.
  - rewrite keyup_eq in Hstep. injection Hstep as <-.
    destruct (mapped key); [|by rewrite Hheld]. simpl.
    destruct (somePressed (JsObject.set (pressedKeys w) key false)) eqn:Hsome;
      simpl; rewrite ?Hsome; [done|].
    unfold stopMovementLoop, stopCommand, emits. simpl.
    destruct (movementInterval w) eqn:Hi; simpl; by rewrite Hsome.
  - destruct (movementInterval w); [|injection Hstep as <-; by rewrite Hheld].
    rewrite movementTick_eq in Hstep. injection Hstep as <-.
    destruct (_ >=? _)%Z; simpl; rewrite Hheld; [|done].
    erewrite countSent_app; [|reflexivity]. rewrite movementCommand_no_stop.
    unfold countSent; simpl. lia.
Qed.

Lemma stop_once_per_idle_transition_witness :
  exists w' : World,
    step (KeyUp "w") movingWorld = Some w' /\
    movementInterval movingWorld = Some 1%positive /\
    movementInterval w' = None /\
    emits movingWorld w' [MsgStop].
Proof.
  destruct (step (KeyUp "w") movingWorld) as [w'|] eqn:Hstep; [|discriminate].
  exists w'. split; [reflexivity|]. split; [reflexivity|].
  pose proof (stop_once_per_idle_transition (KeyUp "w") movingWorld w' Hstep
                eq_refl) as H.
  injection Hstep as <-. exact H.
Defined.

(** The last held key is released after the connection has dropped: the
    controller goes from one held key to none and no stop message is
    transmitted. *)
Lemma idle_transition_without_stop :
  reachable droppedWorld /\
  somePressed (pressedKeys droppedWorld) = true /\
  transmitted droppedWorld = [MsgJoinGame "Tim"; MsgMove (Some up)] /\
  exists w' : World,
    step (KeyUp "w") droppedWorld = Some w' /\
    somePressed (pressedKeys w') = false /\
    transmitted w' = [MsgJoinGame "Tim"; MsgMove (Some up)] /\
    countSent isStop w' = 0%nat.
Proof.
  split.
  { apply (reachable_step SocketClose movingWorld);
      [apply reachable_movingWorld|reflexivity]. }
  do 2 (split; [reflexivity|]).
  eexists. split; [reflexivity|]. by repeat split.
Qed.

(** C6, as the code has it. In a reachable state, key-up of an unmapped
    key changes nothing at all, and key-up of a mapped key that is not
    recorded as held leaves the same keys held and the movement interval as
    it was; it transmits nothing while another key is held, but when no key
    is held it transmits a stop message if the socket is open. *)
Theorem keyup_of_unheld_key (key : string) (w : World) :
  reachable w ->
  mapped key = false \/ held w key = false ->
  exists w' : World,
    keyup key w = Some w' /\
    (forall k : string, held w' k = held w k) /\
    movementInterval w' = movementInterval w /\
    emits w w' (if mapped key && negb (somePressed (pressedKeys w))
                then stopCommand w else []) /\
    (if mapped key then True else w' = w).
Proof.
  intros Hreach Hkey. rewrite keyup_eq. eexists; split; [reflexivity|].
  destruct (mapped key) eqn:Hm; simpl.
  - destruct Hkey as [|Hkey]; [done|]. unfold held in *.
    rewrite (somePressed_set_false_unheld _ _ Hkey).
    destruct (somePressed (pressedKeys w)) eqn:Hsome; simpl.
    + split; [intros k; by apply truthy_set_false|].
      split; [done|]. split; [|done]. unfold emits. by rewrite app_nil_r.
    + apply reachable_invariant in Hreach as [_ Hiff].
      apply Hiff in Hsome. unfold stopMovementLoop; simpl. rewrite Hsome; simpl.
      split; [intros k; by apply truthy_set_false|]. by repeat split.
  - split; [done|]. split; [done|]. split; [|done].
    unfold emits. by rewrite app_nil_r.
Qed.

Lemma keyup_of_unheld_key_witness :
  exists w' : World,
    keyup "a" movingWorld = Some w' /\
    (forall k : string, held w' k = held movingWorld k) /\
    movementInterval w' = movementInterval movingWorld /\
    emits movingWorld w' [].
Proof.
  destruct (keyup_of_unheld_key "a" movingWorld reachable_movingWorld
              (or_intror eq_refl)) as (w' & Hup & Hheld & Hint & Hout & _).
  exists w'. repeat split; assumption.
Defined.

(** Key-up of a mapped key that is not held, with no key held and the
    socket open, transmits a stop message. *)
Lemma keyup_unheld_sends_stop :
  reachable connectedWorld /\
  mapped "w" = true /\
  held connectedWorld "w" = false /\
  transmitted connectedWorld = [MsgJoinGame "Tim"] /\
  exists w' : World,
    keyup "w" connectedWorld = Some w' /\
    transmitted w' = [MsgJoinGame "Tim"; MsgStop].
Proof.
  split; [apply reachable_connectedWorld|].
  repeat split. eexists. split; reflexivity.
Qed.

(** ** Recentering on inbound messages *)



(** ** Direction resolution *)












(** Keys pressed in the order s, w, ArrowLeft: down is sent while the two
    vertical keys are held, whichever the table of [movementKeys] lists
    first, and left as soon as a horizontal key joins them. *)
Example direction_priority_trace :
  option_map transmitted
    (run [KeyDown "s" 1000; KeyDown "w" 1010; IntervalTick 1150;
          KeyDown "ArrowLeft" 1160; IntervalTick 1300] connectedWorld)
  = Some [MsgJoinGame "Tim"; MsgMove (Some down); MsgMove (Some down);
          MsgMove (Some left)].
Proof. reflexivity. Qed.

(** ** Throttling of movement commands *)

Lemma movementCommand_ext (w w' : World) :
  ws w' = ws w -> pressedKeys w' = pressedKeys w ->
  movementCommand w' = movementCommand w.
Proof. unfold movementCommand, notOpen. by intros -> ->. Qed.

Lemma movementCommand_moves (w : World) :
  (List.length (List.filter isMove (movementCommand w)) <= 1)%nat.
Proof.
  unfold movementCommand. destruct (notOpen w); simpl; [lia|].
  destruct (getPrimaryDirection _); simpl; lia.
Qed.

Lemma step_tick (now : Z) (w : World) (i : positive) :
  movementInterval w = Some i ->
  step (IntervalTick now) w =
  Some (if (now - lastMovementTime w >=? MOVEMENT_INTERVAL)%Z
        then with_lastMovementTime now
               (with_transmitted (transmitted w ++ movementCommand w) w)
        else w).
Proof. intros Hi. simpl. rewrite Hi. apply movementTick_eq. Qed.

Lemma pollTicks_S (t0 : Z) (n : nat) :
  pollTicks t0 (S n) = pollTicks t0 n ++ [IntervalTick (t0 + 50 * Z.of_nat (S n))].
Proof. unfold pollTicks. by rewrite seq_S, map_app. Qed.

Lemma third_of_next (n : nat) :
  ((50 * Z.of_nat (S n) - 150 * Z.of_nat (n / 3) >=? 150)%Z = true /\
   (S n / 3 = n / 3 + 1)%nat /\ (S n = 3 * (n / 3 + 1))%nat) \/
  ((50 * Z.of_nat (S n) - 150 * Z.of_nat (n / 3) >=? 150)%Z = false /\
   (S n / 3 = n / 3)%nat).
Proof.
  pose proof (Nat.div_mod_eq n 3) as Hn.
  pose proof (Nat.mod_upper_bound n 3 ltac:(lia)) as Hr.
  destruct (decide (n mod 3 = 2)%nat) as [H2|H2].
  - left. split; [apply Z.geb_le; lia|]. split; [|lia].
    symmetry. apply (Nat.div_unique _ 3 _ 0); lia.
  - right. split; [rewrite Z.geb_leb; apply Z.leb_gt; lia|].
    symmetry. apply (Nat.div_unique _ 3 _ (S (n mod 3))); lia.
Qed.

Lemma run_snoc (events : list Event) (e : Event) (w w1 : World) :
  run events w = Some w1 -> run (events ++ [e]) w = step e w1.
Proof.
  intros Hrun. rewrite run_app, Hrun. simpl. by destruct (step e w1).
Qed.

(** With the clock read at the nominal times of a 50 ms interval, every
    third tick transmits. *)
Lemma pollTicks_count (t0 : Z) (n : nat) (w : World) (i : positive) (m : OutMessage) :
  movementInterval w = Some i ->
  lastMovementTime w = t0 ->
  movementCommand w = [m] -> isMove m = true ->
  exists w' : World,
    run (pollTicks t0 n) w = Some w' /\
    movementInterval w' = Some i /\
    ws w' = ws w /\ pressedKeys w' = pressedKeys w /\
    lastMovementTime w' = (t0 + 150 * Z.of_nat (n / 3))%Z /\
    countSent isMove w' = (countSent isMove w + n / 3)%nat.
Proof.
  intros Hi Hlast Hcmd Hm. induction n as [|n (w1 & Hrun & Hi1 & Hws & Hpk & Hl1 & Hc1)].
  - exists w. simpl. repeat split; try done; lia.
  - rewrite pollTicks_S, (run_snoc _ _ _ _ Hrun), (step_tick _ _ _ Hi1).
    rewrite (movementCommand_ext w w1), Hcmd by done.
    eexists; split; [reflexivity|]. rewrite Hl1.
    replace (t0 + 50 * Z.of_nat (S n) - (t0 + 150 * Z.of_nat (n / 3)))%Z
      with (50 * Z.of_nat (S n) - 150 * Z.of_nat (n / 3))%Z by lia.
    unfold MOVEMENT_INTERVAL.
    destruct (third_of_next n) as [(-> & Hdiv & Hmul)|[-> Hdiv]]; rewrite Hdiv.
    + cbn [movementInterval ws pressedKeys lastMovementTime
             with_lastMovementTime with_transmitted].
      repeat split; try done; try lia.
      erewrite countSent_app; [|reflexivity].
      cbn [List.filter List.length]. rewrite Hm. cbn [List.length]. lia.
    + by repeat split.
Qed.

(** Whatever times the callbacks read, as long as none is later than
    [t0 + T], consecutive transmissions are at least 150 ms apart. *)
Lemma ticksAt_bound (t0 T : Z) (base : nat) (readings : list Z) (w : World)
  (i : positive) :
  movementInterval w = Some i ->
  Forall (fun t => (t <= t0 + T)%Z) readings ->
  (150 * (Z.of_nat (countSent isMove w) - Z.of_nat base)
     <= lastMovementTime w - t0)%Z ->
  (lastMovementTime w <= t0 + T)%Z ->
  exists w' : World,
    run (ticksAt readings) w = Some w' /\
    (150 * (Z.of_nat (countSent isMove w') - Z.of_nat base) <= T)%Z.
Proof.
  intros Hi Hall. revert w Hi.
  induction Hall as [|now readings Hnow _ IH]; intros w Hi Hinv Hlast.
  - exists w. split; [done|]. lia.
  - cbn [ticksAt map run]. fold (ticksAt readings).
    rewrite (step_tick _ _ _ Hi). cbn [mbind option_bind].
    destruct (now - lastMovementTime w >=? MOVEMENT_INTERVAL)%Z eqn:Hge.
    + apply IH; [done| |done]. cbn [lastMovementTime with_lastMovementTime].
      apply Z.geb_le in Hge. unfold MOVEMENT_INTERVAL in Hge.
      erewrite countSent_app; [|reflexivity].
      pose proof (movementCommand_moves w). lia.
    + by apply IH.
Qed.

Lemma keydown_from_idle (key : string) (d : Direction) (t0 : Z) (w : World) :
  reachable w ->
  notOpen w = false ->
  somePressed (pressedKeys w) = false ->
  JsObject.get movementKeys key = Some d ->
  exists w1 : World,
    keydown key t0 w = Some w1 /\
    emits w w1 [MsgMove (Some d)] /\
    movementCommand w1 = [MsgMove (Some d)] /\
    lastMovementTime w1 = t0 /\
    movementInterval w1 = Some (nextTimer w).
Proof.
  intros Hreach Hopen Hidle Hd.
  destruct (reachable_invariant w Hreach) as [Hnd Hiff].
  assert (movementCommand
            (with_pressedKeys (JsObject.set (pressedKeys w) key true) w)
          = [MsgMove (Some d)]) as Hcmd.
  { unfold movementCommand.
    change (notOpen (with_pressedKeys _ w)) with (notOpen w). rewrite Hopen.
    cbn [pressedKeys with_pressedKeys].
    rewrite (heldDirections_first_key _ _ d) by done.
    rewrite getPrimaryDirection_first. by destruct d. }
  rewrite keydown_eq. eexists; split; [reflexivity|].
  assert (mapped key = true) as ->.
  { unfold mapped. rewrite Hd. apply bool_decide_eq_true. eauto. }
  assert (held w key = false) as -> by (by apply somePressed_false).
  rewrite (proj2 Hiff Hidle). cbn [andb negb]. cbv zeta.
  rewrite Hcmd. repeat split.
  erewrite movementCommand_ext; [exact Hcmd|reflexivity|reflexivity].
Qed.

(** C3, as the code has it. When a mapped key is pressed while none is
    held and the socket is open, one move command is transmitted at once; a
    poll tick transmits nothing until 150 ms have passed since the time
    recorded at the last command; over a duration [T] of at least 150 ms,
    whatever the times the ticks read up to [t0 + T], the number of move
    commands is at most [T / 150 + 1], and with the 50 ms ticks at their
    nominal times it is exactly that, fewer than one per tick. *)
Theorem movement_throttle (key : string) (d : Direction) (t0 T : Z) (w : World) :
  reachable w ->
  notOpen w = false ->
  somePressed (pressedKeys w) = false ->
  JsObject.get movementKeys key = Some d ->
  (MOVEMENT_INTERVAL <= T)%Z ->
  exists w1 : World,
    keydown key t0 w = Some w1 /\
    emits w w1 [MsgMove (Some d)] /\
    lastMovementTime w1 = t0 /\
    (forall (now : Z) (w2 : World),
        (now - lastMovementTime w2 < MOVEMENT_INTERVAL)%Z ->
        movementTick now w2 = Some w2) /\
    (exists w' : World,
        run (pollTicks t0 (Z.to_nat (T / 50))) w1 = Some w' /\
        countSent isMove w'
          = (countSent isMove w + Z.to_nat (T / MOVEMENT_INTERVAL) + 1)%nat /\
        (countSent isMove w' < countSent isMove w + 1 + Z.to_nat (T / 50))%nat) /\
    (forall readings : list Z,
        Forall (fun t => (t <= t0 + T)%Z) readings ->
        exists w' : World,
          run (ticksAt readings) w1 = Some w' /\
          (countSent isMove w'
             <= countSent isMove w + Z.to_nat (T / MOVEMENT_INTERVAL) + 1)%nat).
Proof.
  intros Hreach Hopen Hidle Hd HT. unfold MOVEMENT_INTERVAL in HT.
  destruct (keydown_from_idle key d t0 w Hreach Hopen Hidle Hd)
    as (w1 & Hdown & Hemit & Hcmd & Hlast & Hint).
  assert (countSent isMove w1 = (countSent isMove w + 1)%nat) as Hc1.
  { by rewrite (countSent_app isMove _ _ _ Hemit). }
  exists w1. do 3 (split; [done|]). split; [|split].
  - intros now w2 Hlt. rewrite movementTick_eq.
    apply Z.ltb_lt in Hlt. rewrite Z.geb_leb, Z.leb_antisym, Hlt. done.
  - destruct (pollTicks_count t0 (Z.to_nat (T / 50)) w1 _ _ Hint Hlast Hcmd eq_refl)
      as (w' & Hrun & _ & _ & _ & _ & Hc).
    exists w'. split; [done|].
    assert (Z.to_nat (T / 50) / 3 = Z.to_nat (T / 150))%nat as Hthird.
    { assert (0 <= T / 50)%Z by (apply Z.div_pos; lia).
      change 3%nat with (Z.to_nat 3). rewrite <- Z2Nat.inj_div by lia.
      rewrite Z.div_div by lia. done. }
    unfold MOVEMENT_INTERVAL. rewrite Hc, Hc1, Hthird.
    split; [lia|].
    pose proof (Z.div_le_lower_bound T 150 1 ltac:(lia) ltac:(lia)) as Hone.
    assert (3 * (T / 150) <= T / 50)%Z as Hthree.
    { apply Z.div_le_lower_bound; [lia|].
      pose proof (Z.mul_div_le T 150 ltac:(lia)). lia. }
    lia.
  - intros readings Hall.
    destruct (ticksAt_bound t0 T (countSent isMove w1) readings w1 _ Hint Hall)
      as (w' & Hrun & Hbound); [lia|lia|].
    exists w'. split; [done|]. unfold MOVEMENT_INTERVAL.
    assert (Z.of_nat (countSent isMove w') - Z.of_nat (countSent isMove w1)
            <= T / 150)%Z by (apply Z.div_le_lower_bound; lia).
    lia.
Qed.

Lemma movement_throttle_witness :
  exists w1 : World,
    keydown "w" 1000 connectedWorld = Some w1 /\
    emits connectedWorld w1 [MsgMove (Some up)] /\
    exists w' : World,
      run (pollTicks 1000 (Z.to_nat (600 / 50))) w1 = Some w' /\
      countSent isMove w'
        = (countSent isMove connectedWorld
           + Z.to_nat (600 / MOVEMENT_INTERVAL) + 1)%nat.
Proof.
  destruct (movement_throttle "w" up 1000 600 connectedWorld
              reachable_connectedWorld eq_refl eq_refl eq_refl)
    as (w1 & Hdown & Hemit & _ & _ & (w' & Hrun & Hcount & _) & _).
  - unfold MOVEMENT_INTERVAL. lia.
  - exists w1. do 2 (split; [assumption|]). exists w'. by split.
Defined.

(** A key held for 1200 ms on an open socket while every fourth tick runs
    one millisecond late: each command after the first slips to the next
    tick, 200 ms apart, and 7 move commands are transmitted where
    [1200 / 150 + 1] is 9. A key pressed before the socket has opened
    transmits no move command at all. *)
Lemma throttle_count_under_jitter :
  reachable connectedWorld /\
  notOpen connectedWorld = false /\
  somePressed (pressedKeys connectedWorld) = false /\
  Forall (fun t => (1000 <= t <= 1000 + 1200)%Z) lateReadings /\
  option_map (countSent isMove)
    (run (KeyDown "w" 1000 :: ticksAt lateReadings) connectedWorld)
    = Some 7%nat /\
  (Z.to_nat (1200 / MOVEMENT_INTERVAL) + 1 = 9)%nat /\
  option_map transmitted
    (run (KeyDown "w" 1000 :: pollTicks 1000 24)
         (connectToServer initialWorld))
    = Some [].
Proof.
  split; [apply reachable_connectedWorld|].
  do 2 (split; [reflexivity|]).
  split; [repeat constructor; lia|].
  repeat split.
Qed.

(** A key held for 600 ms: the press and the ticks at 150, 300, 450 and
    600 ms transmit, the other eight ticks do not. *)
Example throttle_600ms :
  option_map (countSent isMove)
    (run (KeyDown "w" 1000 :: pollTicks 1000 12) connectedWorld) = Some 5%nat.
Proof. reflexivity. Qed.

(** * Further properties of the event loop *)

(** ** Exceptions and invariants *)

(** X1. No sequence of socket, message, key and timer events ends in an
    exception: every [ws.send] their handlers reach is on an open socket,
    because the senders test the socket first and the browser opens it
    before it calls [onopen]. The [load] and [resize] events are left out:
    their listener ends by drawing a frame, which can throw. *)
Theorem event_loop_never_throws (events : list Event) (w : World) :
  forallb (fun e => negb (redraws e)) events = true ->
  exists w' : World, run events w = Some w'.
Proof.
  revert w. induction events as [|e rest IH]; intros w Hall; simpl; [eauto|].
  simpl in Hall. apply andb_true_iff in Hall as [_ Hall].
  destruct (step_total e w) as [w1 ->]. simpl. by apply IH.
Qed.

Lemma event_loop_never_throws_witness :
  exists w' : World, run busySession connectedWorld = Some w'.
Proof. apply event_loop_never_throws. reflexivity. Defined.

Lemma step_keys_mapped (e : Event) (w w' : World) :
  Forall (fun k => mapped k = true) (JsObject.keys (pressedKeys w)) ->
  step e w = Some w' ->
  Forall (fun k => mapped k = true) (JsObject.keys (pressedKeys w')).
Proof.
  intros Hall Hstep.
  assert (forall key v, mapped key = true ->
            Forall (fun k => mapped k = true)
                   (JsObject.keys (JsObject.set (pressedKeys w) key v))) as Hset.
  { intros key v Hm. apply List.Forall_forall. intros k Hk.
    apply in_keys_set in Hk as [->|Hk]; [done|].
    by apply (proj1 (List.Forall_forall _ _) Hall). }
  destruct e; simpl in Hstep.
  - by injection Hstep as <-.
  - by injection Hstep as <-.
  - destruct (ws w); [|by injection Hstep as <-].
    unfold ws_onopen in Hstep. rewrite ws_send_open in Hstep by done.
    by injection Hstep as <-.
  - destruct (ws w); by injection Hstep as <-.
  - injection Hstep as <-.
    by destruct (handleServerMessage_frame message w) as (_ & -> & _).
  - rewrite keydown_eq in Hstep. injection Hstep as <-.
    destruct (mapped key) eqn:Hm; simpl; [|done].
    destruct (negb (held w key)); [|done].
    destruct (movementInterval w); simpl; by apply Hset.
  - rewrite keyup_eq in Hstep. injection Hstep as <-.
    destruct (mapped key) eqn:Hm; [|done]. simpl.
    destruct (somePressed _); simpl; [by apply Hset|].
    unfold stopMovementLoop; simpl.
    destruct (movementInterval w); simpl; by apply Hset.
  - destruct (movementInterval w); [|by injection Hstep as <-].
    rewrite movementTick_eq in Hstep. injection Hstep as <-.
    by destruct (_ >=? _)%Z.
Qed.

(** X2. In every reachable state the movement interval is running exactly
    while some key is recorded as held, [pressedKeys] has no repeated
    property, and its properties are all keys of [movementKeys]. *)
Theorem interval_runs_while_key_held (w : World) :
  reachable w ->
  (movementInterval w = None <-> somePressed (pressedKeys w) = false) /\
  List.NoDup (JsObject.keys (pressedKeys w)) /\
  Forall (fun k => mapped k = true) (JsObject.keys (pressedKeys w)).
Proof.
  intros Hreach.
  destruct (reachable_invariant w Hreach) as [Hnd Hiff].
  do 2 (split; [done|]). clear Hnd Hiff.
  induction Hreach as [|e w w' _ IH Hstep]; [constructor|].
  by eapply step_keys_mapped.
Qed.

Lemma interval_runs_while_key_held_witness :
  (movementInterval movingWorld = None <->
   somePressed (pressedKeys movingWorld) = false) /\
  List.NoDup (JsObject.keys (pressedKeys movingWorld)) /\
  Forall (fun k => mapped k = true) (JsObject.keys (pressedKeys movingWorld)).
Proof.
  apply interval_runs_while_key_held.
  apply (reachable_step (KeyDown "w" 1000) connectedWorld); [|reflexivity].
  apply (reachable_step SocketOpen
           (connectToServer (setupCanvas 800 600 initialWorld))); [|reflexivity].
  apply (reachable_step (WorldImageLoad 800 600) initialWorld); [|reflexivity].
  apply reachable_init.
Defined.

Lemma step_join_first (e : Event) (w w' : World) :
  (notOpen w = false -> transmitted w <> []) /\
  (transmitted w = [] \/
   exists rest, transmitted w = MsgJoinGame "Tim" :: rest) ->
  step e w = Some w' ->
  (notOpen w' = false -> transmitted w' <> []) /\
  (transmitted w' = [] \/
   exists rest, transmitted w' = MsgJoinGame "Tim" :: rest).
Proof.
  intros [Hopen Hfirst] Hstep.
  assert (forall out,
            notOpen w = true \/ transmitted w <> [] ->
            (out <> [] -> notOpen w = false) ->
            (transmitted w ++ out = [] \/
             exists rest, transmitted w ++ out = MsgJoinGame "Tim" :: rest)) as Happ.
  { intros out Hor Hout. destruct Hfirst as [Hnil|[rest Hrest]].
    - destruct out as [|m out]; [left; by rewrite Hnil|].
      specialize (Hout ltac:(done)). destruct Hor as [Hc|Hne]; congruence.
    - right. exists (rest ++ out). by rewrite Hrest. }
  assert (notOpen w = true \/ transmitted w <> []) as Hor.
  { destruct (notOpen w) eqn:E; [by left|right; by apply Hopen]. }
  assert (forall out w1,
            transmitted w1 = transmitted w ++ out -> ws w1 = ws w ->
            (out <> [] -> notOpen w = false) ->
            (notOpen w1 = false -> transmitted w1 <> []) /\
            (transmitted w1 = [] \/
             exists rest, transmitted w1 = MsgJoinGame "Tim" :: rest)) as Hsame.
  { intros out w1 Ht Hws Hout. split.
    - unfold notOpen. rewrite Hws. fold (notOpen w). intros Ho.
      rewrite Ht. intros [Hnil _]%app_eq_nil. by apply Hopen.
    - rewrite Ht. by apply Happ. }
  assert (forall w0, movementCommand w0 <> [] -> notOpen w0 = false) as Hcmd.
  { intros w0. unfold movementCommand. by destruct (notOpen w0). }
  destruct e; simpl in Hstep.
  - injection Hstep as <-. simpl. split; [done|exact Hfirst].
  - injection Hstep as <-.
    eapply (Hsame []); [simpl; by rewrite app_nil_r|done|done].
  - destruct (ws w) eqn:Hws.
    + unfold ws_onopen in Hstep. rewrite ws_send_open in Hstep by done.
      injection Hstep as <-. simpl. split.
      * intros _ [_ [=]]%app_eq_nil.
      * destruct Hfirst as [->|[rest ->]]; right; eauto.
    + injection Hstep as <-. split; [done|exact Hfirst].
  - destruct (ws w); injection Hstep as <-; simpl; split; try done.
  - injection Hstep as <-.
    destruct (handleServerMessage_frame message w) as (Hws & _ & _ & _ & Ht).
    apply (Hsame []); [by rewrite app_nil_r|done|done].
  - rewrite keydown_eq in Hstep. injection Hstep as <-.
    destruct (mapped key && negb (held w key)); [|by split].
    destruct (movementInterval w); cbv zeta.
    + eapply (Hsame []); [simpl; by rewrite app_nil_r|done|done].
    + eapply (Hsame (movementCommand _)); [reflexivity|reflexivity|].
      intros H%Hcmd. exact H.
  - rewrite keyup_eq in Hstep. injection Hstep as <-.
    destruct (mapped key); [|by split]. cbv zeta.
    destruct (somePressed _).
    + eapply (Hsame []); [simpl; by rewrite app_nil_r|done|done].
    + eapply (Hsame (stopCommand w)); [reflexivity| |].
      * unfold stopMovementLoop; simpl. by destruct (movementInterval w).
      * unfold stopCommand. by destruct (notOpen w).
  - destruct (movementInterval w); [|injection Hstep as <-; by split].
    rewrite movementTick_eq in Hstep. injection Hstep as <-.
    destruct (_ >=? _)%Z; [|by split].
    eapply (Hsame (movementCommand w)); [reflexivity|reflexivity|apply Hcmd].
Qed.

(** X3. The join request precedes everything else on the wire: in every
    reachable state the transmitted messages, if any, start with
    [join_game] for the user name Tim, and a socket that is open has
    already carried it. *)
Theorem join_game_sent_first (w : World) :
  reachable w ->
  (notOpen w = false -> transmitted w <> []) /\
  (transmitted w = [] \/
   exists rest : list OutMessage, transmitted w = MsgJoinGame "Tim" :: rest).
Proof.
  induction 1 as [|e w w' _ IH Hstep].
  - split; [done|by left].
  - by eapply step_join_first.
Qed.

Lemma join_game_sent_first_witness :
  (notOpen movingWorld = false -> transmitted movingWorld <> []) /\
  (transmitted movingWorld = [] \/
   exists rest : list OutMessage,
     transmitted movingWorld = MsgJoinGame "Tim" :: rest).
Proof.
  apply join_game_sent_first.
  apply (reachable_step (KeyDown "w" 1000) connectedWorld); [|reflexivity].
  apply (reachable_step SocketOpen
           (connectToServer (setupCanvas 800 600 initialWorld))); [|reflexivity].
  apply (reachable_step (WorldImageLoad 800 600) initialWorld); [|reflexivity].
  apply reachable_init.
Defined.

(** ** What the input controller sends *)

Lemma getPrimaryDirection_In (directions : list Direction) (d : Direction) :
  getPrimaryDirection directions = Some d -> In d directions.
Proof.
  rewrite getPrimaryDirection_first.
  destruct (find isHorizontal directions) as [d'|] eqn:Hfind.
  - intros [= <-]. by apply find_some in Hfind as [Hin _].
  - destruct directions as [|d0 rest]; simpl; [done|]. intros [= <-]. by left.
Qed.

Lemma heldDirections_In (pk : JsObject.t bool) (d : Direction) :
  In d (heldDirections pk) ->
  exists key : string,
    truthy (JsObject.get pk key) = true /\ JsObject.get movementKeys key = Some d.
Proof.
  unfold heldDirections. intros Hin%list_elem_of_In.
  apply list_elem_of_omap in Hin as (key & _ & Hkey).
  exists key. by destruct (truthy (JsObject.get pk key)).
Qed.

(** X4. [sendMovementCommand] transmits nothing or exactly one move
    command, and the direction it carries is never undefined and is always
    the direction of a key that is recorded as held. *)
Theorem move_direction_is_held (w w' : World) :
  sendMovementCommand w = Some w' ->
  w' = w \/
  exists (d : Direction) (key : string),
    w' = with_transmitted (transmitted w ++ [MsgMove (Some d)]) w /\
    held w key = true /\
    JsObject.get movementKeys key = Some d.
Proof.
  rewrite sendMovementCommand_eq. intros [= <-].
  destruct (notOpen w); [by left|].
  destruct (getPrimaryDirection (heldDirections (pressedKeys w))) as [d|] eqn:Hd;
    [|by left].
  right. apply getPrimaryDirection_In, heldDirections_In in Hd as (key & Hk & Hm).
  by exists d, key.
Qed.

Lemma move_direction_is_held_witness :
  exists (d : Direction) (key : string),
    sendMovementCommand movingWorld
      = Some (with_transmitted
                (transmitted movingWorld ++ [MsgMove (Some d)]) movingWorld) /\
    held movingWorld key = true /\
    JsObject.get movementKeys key = Some d.
Proof.
  destruct (move_direction_is_held movingWorld
              (with_transmitted
                 (transmitted movingWorld ++ [MsgMove (Some up)]) movingWorld)
              eq_refl) as [Hsame|(d & key & Heq & Hk & Hm)].
  - discriminate Hsame.
  - exists d, key. split; [|by split].
    by rewrite <- Heq.
Defined.

(** X5. No move command is transmitted by an event that leaves no key
    held: releasing the last key, a message, a stray tick, none of them
    sends a move. *)
Theorem no_move_while_idle (e : Event) (w w' : World) :
  reachable w ->
  step e w = Some w' ->
  somePressed (pressedKeys w') = false ->
  countSent isMove w' = countSent isMove w.
Proof.
  intros Hreach Hstep Hidle.
  destruct (reachable_invariant w Hreach) as [_ Hiff].
  destruct e; simpl in Hstep.
  - by injection Hstep as <-.
  - by injection Hstep as <-.
  - destruct (ws w); [|by injection Hstep as <-].
    unfold ws_onopen in Hstep. rewrite ws_send_open in Hstep by done.
    injection Hstep as <-.
    rewrite (countSent_app isMove [MsgJoinGame "Tim"] w); [simpl; lia|done].
  - destruct (ws w); by injection Hstep as <-.
  - injection Hstep as <-.
    destruct (handleServerMessage_frame message w) as (_ & _ & _ & _ & Ht).
    unfold countSent. by rewrite Ht.
  - rewrite keydown_eq in Hstep. injection Hstep as <-.
    destruct (mapped key && negb (held w key)); [|done].
    destruct (movementInterval w); simpl in Hidle;
      by rewrite somePressed_set_true in Hidle.
  - rewrite keyup_eq in Hstep. injection Hstep as <-.
    destruct (mapped key); [|done]. cbv zeta in *.
    destruct (somePressed (JsObject.set (pressedKeys w) key false)) eqn:Hs;
      [simpl in Hidle; congruence|].
    erewrite countSent_app; [|reflexivity].
    unfold stopCommand. destruct (notOpen w); simpl; lia.
  - destruct (movementInterval w) eqn:Hi; [|by injection Hstep as <-].
    rewrite movementTick_eq in Hstep. injection Hstep as <-.
    destruct (_ >=? _)%Z; [|done]. simpl in Hidle.
    apply Hiff in Hidle. congruence.
Qed.

Lemma no_move_while_idle_witness :
  exists w' : World,
    step (KeyUp "w") movingWorld = Some w' /\
    somePressed (pressedKeys w') = false /\
    countSent isMove w' = countSent isMove movingWorld.
Proof.
  eexists. split; [reflexivity|]. split; [reflexivity|].
  apply (no_move_while_idle (KeyUp "w") movingWorld); [|reflexivity|reflexivity].
  apply (reachable_step (KeyDown "w" 1000) connectedWorld); [|reflexivity].
  apply (reachable_step SocketOpen
           (connectToServer (setupCanvas 800 600 initialWorld))); [|reflexivity].
  apply (reachable_step (WorldImageLoad 800 600) initialWorld); [|reflexivity].
  apply reachable_init.
Defined.

(** X6. While a key is held, a key-down never transmits and never touches
    the interval or the time of the last command: an auto-repeat of a held
    key and the press of an unmapped key change nothing, and the press of a
    second movement key only records it as held. *)
Theorem keydown_while_moving (key : string) (now : Z) (w : World) :
  reachable w ->
  somePressed (pressedKeys w) = true ->
  keydown key now w =
  Some (if mapped key && negb (held w key)
        then with_pressedKeys (JsObject.set (pressedKeys w) key true) w
        else w).
Proof.
  intros Hreach Hheld. rewrite keydown_eq.
  destruct (reachable_invariant w Hreach) as [_ Hiff].
  destruct (mapped key && negb (held w key)); [|done].
  destruct (movementInterval w) eqn:Hi; [done|].
  pose proof (proj1 Hiff eq_refl). congruence.
Qed.

Lemma keydown_while_moving_witness :
  keydown "ArrowLeft" 1040 movingWorld
  = Some (with_pressedKeys [("w", true); ("ArrowLeft", true)] movingWorld) /\
  keydown "w" 1040 movingWorld = Some movingWorld.
Proof.
  assert (reachable movingWorld) as Hreach.
  { apply (reachable_step (KeyDown "w" 1000) connectedWorld); [|reflexivity].
    apply (reachable_step SocketOpen
             (connectToServer (setupCanvas 800 600 initialWorld))); [|reflexivity].
    apply (reachable_step (WorldImageLoad 800 600) initialWorld); [|reflexivity].
    apply reachable_init. }
  split.
  - exact (keydown_while_moving "ArrowLeft" 1040 movingWorld Hreach eq_refl).
  - exact (keydown_while_moving "w" 1040 movingWorld Hreach eq_refl).
Defined.

Lemma with_gameState_id (w : World) : with_gameState (gameState w) w = w.
Proof. by destruct w. Qed.

(** X7. Pressing a mapped key while none is held and releasing it again, on
    an open socket, transmits one move command with the key's direction
    followed by one stop command, and leaves the interval cleared, no key
    held and the game state untouched. *)
Theorem press_release_round_trip
  (key : string) (d : Direction) (now : Z) (w : World) :
  reachable w ->
  notOpen w = false ->
  somePressed (pressedKeys w) = false ->
  JsObject.get movementKeys key = Some d ->
  exists w' : World,
    run [KeyDown key now; KeyUp key] w = Some w' /\
    emits w w' [MsgMove (Some d); MsgStop] /\
    movementInterval w' = None /\
    somePressed (pressedKeys w') = false /\
    gameState w' = gameState w.
Proof.
  intros Hreach Hopen Hidle Hd.
  destruct (keydown_from_idle key d now w Hreach Hopen Hidle Hd)
    as (w1 & Hdown & Hemit & _ & _ & Hint).
  assert (mapped key = true) as Hm.
  { unfold mapped. rewrite Hd. apply bool_decide_eq_true. eauto. }
  assert (pressedKeys w1 = JsObject.set (pressedKeys w) key true
          /\ ws w1 = ws w /\ gameState w1 = gameState w) as (Hpk & Hws & Hg).
  { assert (held w key = false) as Hk by (by apply somePressed_false).
    assert (movementInterval w = None) as Hi
      by (by apply (reachable_invariant w Hreach)).
    rewrite keydown_eq, Hm, Hk, Hi in Hdown. by injection Hdown as <-. }
  assert (somePressed (JsObject.set (pressedKeys w1) key false) = false) as Hnone.
  { apply somePressed_false. intros k. destruct (decide (key = k)) as [<-|Hne].
    - by rewrite get_set_eq.
    - rewrite get_set_ne, Hpk, get_set_ne by done. by apply somePressed_false. }
  assert (stopCommand w1 = [MsgStop]) as Hstop.
  { unfold stopCommand, notOpen. rewrite Hws. fold (notOpen w). by rewrite Hopen. }
  cbn [run step]. rewrite Hdown. cbn [mbind option_bind].
  rewrite keyup_eq, Hm. cbv zeta. cbn [pressedKeys with_pressedKeys].
  rewrite Hnone, Hstop. eexists. split; [reflexivity|].
  unfold emits, stopMovementLoop.
  cbn [movementInterval with_pressedKeys]. rewrite Hint. simpl.
  rewrite Hnone, Hemit, <- app_assoc. by repeat split.
Qed.

Lemma press_release_round_trip_witness :
  exists w' : World,
    run [KeyDown "d" 5000; KeyUp "d"] connectedWorld = Some w' /\
    emits connectedWorld w' [MsgMove (Some right); MsgStop] /\
    movementInterval w' = None /\
    somePressed (pressedKeys w') = false /\
    gameState w' = gameState connectedWorld.
Proof.
  apply (press_release_round_trip "d" right 5000 connectedWorld);
    [|reflexivity|reflexivity|reflexivity].
  apply (reachable_step SocketOpen
           (connectToServer (setupCanvas 800 600 initialWorld))); [|reflexivity].
  apply (reachable_step (WorldImageLoad 800 600) initialWorld); [|reflexivity].
  apply reachable_init.
Defined.

(** X8. The keyboard and the timer never change the game state: no key
    event and no tick moves a player, the viewport or an avatar, and none
    creates an image. The client shows only what the server has sent. *)
Theorem input_never_moves_player (e : Event) (w w' : World) :
  isInput e = true ->
  step e w = Some w' ->
  gameState w' = gameState w /\ images w' = images w /\ console w' = console w.
Proof.
  intros Hin Hstep. destruct e; try discriminate Hin; simpl in Hstep.
  - rewrite keydown_eq in Hstep. injection Hstep as <-.
    destruct (mapped key && negb (held w key)); [|done].
    by destruct (movementInterval w).
  - rewrite keyup_eq in Hstep. injection Hstep as <-.
    destruct (mapped key); [|done]. cbv zeta.
    destruct (somePressed _); [done|].
    unfold stopMovementLoop; simpl. by destruct (movementInterval w).
  - destruct (movementInterval w); [|by injection Hstep as <-].
    rewrite movementTick_eq in Hstep. injection Hstep as <-.
    by destruct (_ >=? _)%Z.
Qed.

Lemma input_never_moves_player_witness :
  exists w' : World,
    step (KeyDown "ArrowUp" 9000) joinedWorld = Some w' /\
    gameState w' = gameState joinedWorld /\
    images w' = images joinedWorld /\
    console w' = console joinedWorld.
Proof.
  eexists. split; [reflexivity|].
  by apply (input_never_moves_player (KeyDown "ArrowUp" 9000) joinedWorld).
Defined.

(** X9. An inbound message never reaches the input controller or the
    wire: whatever the server sends, the socket, the held keys, the
    movement interval and the time of the last command stay as they were
    and nothing is transmitted in reply. *)
Theorem messages_leave_controller_alone (message : ServerMessage) (w : World) :
  let w' := handleServerMessage message w in
  ws w' = ws w /\
  pressedKeys w' = pressedKeys w /\
  movementInterval w' = movementInterval w /\
  lastMovementTime w' = lastMovementTime w /\
  nextTimer w' = nextTimer w /\
  transmitted w' = transmitted w.
Proof.
  destruct (handleServerMessage_frame message w) as (H1 & H2 & H3 & H4 & H5).
  simpl. repeat split; try assumption.
  destruct message as [[] pid snap avs err|p [a|]|moved|pid|action]; simpl;
    try done.
  - unfold preloadAvatarImages; simpl.
    destruct (preloadAvatars avs (images w)); simpl.
    match goal with |- context [centerViewportOnMyAvatar ?x] =>
      unfold centerViewportOnMyAvatar end. simpl.
    destruct (String.eqb pid ""); simpl; [done|].
    by destruct (snap !! pid).
  - unfold preloadAvatarImages; simpl. by destruct (preloadAvatars _ _).
  - unfold updateMovementPrediction.
    destruct (moved !! _); [|done].
    destruct (somePressed (pressedKeys w)); simpl; [done|].
    unfold centerViewportOnMyAvatar; simpl.
    destruct (myPlayerId (gameState w)) as [pid|]; simpl; [|done].
    destruct (String.eqb pid ""); simpl; [done|].
    by destruct ((moved ∪ players (gameState w)) !! pid).
Qed.

Lemma step_stays_closed (e : Event) (w w1 : World) :
  ws w = Some (mkWebSocket CLOSED) ->
  match e with
  | WorldImageLoad _ _ | SocketOpen => False
  | _ => True
  end ->
  step e w = Some w1 ->
  ws w1 = Some (mkWebSocket CLOSED) /\ transmitted w1 = transmitted w.
Proof.
  intros Hws He Hstep.
  assert (notOpen w = true) as Hclosed by (unfold notOpen; by rewrite Hws).
  assert (movementCommand w = []) as Hmc
    by (unfold movementCommand; by rewrite Hclosed).
  assert (stopCommand w = []) as Hsc
    by (unfold stopCommand; by rewrite Hclosed).
  destruct e; try destruct He; simpl in Hstep.
  - by injection Hstep as <-.
  - rewrite Hws in Hstep. by injection Hstep as <-.
  - injection Hstep as <-.
    destruct (handleServerMessage_frame message w) as (Hw & _ & _ & _ & Ht).
    split; [congruence|done].
  - rewrite keydown_eq in Hstep. injection Hstep as <-.
    destruct (mapped key && negb (held w key)); [|done].
    destruct (movementInterval w); [done|]. cbv zeta.
    erewrite movementCommand_ext; [|reflexivity|reflexivity].
    unfold movementCommand.
    change (notOpen (with_pressedKeys _ w)) with (notOpen w).
    rewrite Hclosed. simpl. by rewrite app_nil_r.
  - rewrite keyup_eq in Hstep. injection Hstep as <-.
    destruct (mapped key); [|done]. cbv zeta.
    destruct (somePressed _); [done|]. rewrite Hsc.
    unfold stopMovementLoop; simpl.
    destruct (movementInterval w); simpl; by rewrite app_nil_r.
  - destruct (movementInterval w); [|by injection Hstep as <-].
    rewrite movementTick_eq in Hstep. injection Hstep as <-.
    destruct (_ >=? _)%Z; [|done]. rewrite Hmc. simpl.
    by rewrite app_nil_r.
Qed.

(** X10. Once the connection has closed it stays closed: after a [close]
    event, whatever the browser can still deliver (key events, timer
    ticks, messages, resizes, further [close] events) leaves the socket in
    place and closed, and nothing more is transmitted. The client creates
    a socket in the [load] listener only and never reconnects. *)
Theorem no_reconnect (events : list Event) (w w1 : World) :
  is_Some (ws w) ->
  step SocketClose w = Some w1 ->
  deliverable events w1 = true ->
  exists w' : World,
    run events w1 = Some w' /\
    ws w' = Some (mkWebSocket CLOSED) /\
    transmitted w' = transmitted w.
Proof.
  intros [s0 Hs0] Hclose. simpl in Hclose. rewrite Hs0 in Hclose.
  injection Hclose as <-.
  change (transmitted w) with
    (transmitted (ws_onclose (with_ws (Some (mkWebSocket CLOSED)) w))).
  assert (ws (ws_onclose (with_ws (Some (mkWebSocket CLOSED)) w))
          = Some (mkWebSocket CLOSED)) as Hws by reflexivity.
  revert Hws. generalize (ws_onclose (with_ws (Some (mkWebSocket CLOSED)) w)).
  clear w s0 Hs0. intros w Hws.
  revert w Hws. induction events as [|e rest IH]; simpl; intros w Hws Hok.
  - by exists w.
  - apply andb_true_iff in Hok as [He Hok].
    destruct (step_total e w) as [w2 Hstep]. rewrite Hstep in Hok |- *. simpl.
    destruct (step_stays_closed e w w2 Hws) as [Hws2 Ht2]; [|done|].
    { destruct e; try done. unfold connecting in He. by rewrite Hws in He. }
    destruct (IH w2 Hws2 Hok) as (w' & Hrun & Hws' & Ht').
    exists w'. split; [done|]. split; [done|congruence].
Qed.

Lemma no_reconnect_witness :
  exists w' : World,
    run afterDrop droppedWorld = Some w' /\
    ws w' = Some (mkWebSocket CLOSED) /\
    transmitted w' = transmitted movingWorld.
Proof.
  refine (no_reconnect afterDrop movingWorld droppedWorld _ eq_refl eq_refl).
  eexists. reflexivity.
Defined.

(** ** The player mapping *)

(** X11. A [player_left] message for an id that is not in the mapping
    changes nothing, and a [player_joined] message without avatar followed
    by [player_left] for the same id gives back the state there was before
    the player joined, when the id was new. *)
Theorem join_then_leave_restores_store (player : Player) (w : World) :
  players (gameState w) !! player_id player = None ->
  handleServerMessage (PlayerLeft (player_id player)) w = w /\
  handleServerMessage (PlayerLeft (player_id player))
    (handleServerMessage (PlayerJoined player None) w) = w.
Proof.
  intros Habsent. simpl. unfold with_players; simpl.
  rewrite delete_insert_eq, delete_id by done.
  destruct w as [[] ? ? ? ? ? ? ? ?]. by simpl.
Qed.

Lemma join_then_leave_restores_store_witness :
  handleServerMessage (PlayerLeft "p4") joinedWorld = joinedWorld /\
  handleServerMessage (PlayerLeft "p4")
    (handleServerMessage (PlayerJoined cat None) joinedWorld) = joinedWorld.
Proof.
  by apply (join_then_leave_restores_store cat joinedWorld).
Defined.

(** ** The viewport *)

(** X12. Recentering twice is recentering once: with the same player and
    the same window, a second [centerViewportOnMyAvatar] changes nothing. *)
Theorem centerViewportOnMyAvatar_idempotent (w : World) :
  centerViewportOnMyAvatar (centerViewportOnMyAvatar w)
  = centerViewportOnMyAvatar w.
Proof.
  unfold centerViewportOnMyAvatar at 2.
  destruct (myPlayerId (gameState w)) as [pid|] eqn:Hid;
    [|unfold centerViewportOnMyAvatar; by rewrite Hid].
  destruct (String.eqb pid "") eqn:Hne;
    [unfold centerViewportOnMyAvatar; by rewrite Hid, Hne|].
  destruct (players (gameState w) !! pid) as [myPlayer|] eqn:Hp;
    [|unfold centerViewportOnMyAvatar; by rewrite Hid, Hne, Hp].
  unfold centerViewportOnMyAvatar. simpl. by rewrite Hid, Hne, Hp.
Qed.

Lemma clamp_inside (target bound : Q) :
  (0 <= target)%Q -> (target <= bound)%Q ->
  (Qmax 0 (Qmin target bound) == target)%Q.
Proof.
  intros H0 Hb. rewrite (Q.min_l _ _ Hb). by apply Q.max_r.
Qed.

Lemma clamp_low (target bound : Q) :
  (target <= 0)%Q -> (Qmax 0 (Qmin target bound) == 0)%Q.
Proof.
  intros H0. apply Q.max_l. apply (Qle_trans _ target); [apply Q.le_min_l|exact H0].
Qed.

Lemma clamp_high (target bound : Q) :
  (0 <= bound)%Q -> (bound <= target)%Q ->
  (Qmax 0 (Qmin target bound) == bound)%Q.
Proof.
  intros H0 Hb. rewrite (Q.min_r _ _ Hb). by apply Q.max_r.
Qed.

Lemma recentered_origin (w : World) (pid : string) (myPlayer : Player) :
  myPlayerId (gameState w) = Some pid ->
  pid <> "" ->
  players (gameState w) !! pid = Some myPlayer ->
  let v := viewport (gameState w) in
  let v' := viewport (gameState (centerViewportOnMyAvatar w)) in
  viewport_x v'
    = Qmax 0 (Qmin (player_x myPlayer - viewport_width v / 2)
                   (worldWidth - viewport_width v)) /\
  viewport_y v'
    = Qmax 0 (Qmin (player_y myPlayer - viewport_height v / 2)
                   (worldHeight - viewport_height v)).
Proof.
  intros Hid Hne Hp. unfold centerViewportOnMyAvatar.
  rewrite Hid. apply String.eqb_neq in Hne. by rewrite Hne, Hp.
Qed.

(** X13. When the local player is at least half a viewport away from every
    edge of the world, recentering puts the player exactly in the middle of
    the viewport. *)
Theorem player_centred_away_from_edges
  (w : World) (pid : string) (myPlayer : Player) :
  myPlayerId (gameState w) = Some pid ->
  pid <> "" ->
  players (gameState w) !! pid = Some myPlayer ->
  let v := viewport (gameState w) in
  (viewport_width v / 2 <= player_x myPlayer)%Q ->
  (player_x myPlayer <= worldWidth - viewport_width v / 2)%Q ->
  (viewport_height v / 2 <= player_y myPlayer)%Q ->
  (player_y myPlayer <= worldHeight - viewport_height v / 2)%Q ->
  let v' := viewport (gameState (centerViewportOnMyAvatar w)) in
  (player_x myPlayer - viewport_x v' == viewport_width v / 2)%Q /\
  (player_y myPlayer - viewport_y v' == viewport_height v / 2)%Q.
Proof.
  intros Hid Hne Hp v Hx0 Hx1 Hy0 Hy1 v'.
  destruct (recentered_origin w pid myPlayer Hid Hne Hp) as [Ex Ey].
  cbv zeta in Ex, Ey. fold v in Ex, Ey. subst v'. rewrite Ex, Ey.
  assert (viewport_width v / 2 + viewport_width v / 2 == viewport_width v)%Q
    as Ew by field.
  assert (viewport_height v / 2 + viewport_height v / 2 == viewport_height v)%Q
    as Eh by field.
  split.
  - rewrite clamp_inside; [ring|lra|lra].
  - rewrite clamp_inside; [ring|lra|lra].
Qed.

Lemma player_centred_away_from_edges_witness :
  let v' := viewport (gameState (centerViewportOnMyAvatar joinedWorld)) in
  (player_x tim - viewport_x v' == 800 / 2)%Q /\
  (player_y tim - viewport_y v' == 600 / 2)%Q.
Proof.
  apply (player_centred_away_from_edges joinedWorld "p1" tim);
    try reflexivity; try discriminate; vm_compute; discriminate.
Defined.

(** X14. When the local player is within half a viewport of the left and
    top edges of the world, recentering pins the viewport to the origin of
    the world instead of centring the player. *)
Theorem viewport_pinned_at_origin
  (w : World) (pid : string) (myPlayer : Player) :
  myPlayerId (gameState w) = Some pid ->
  pid <> "" ->
  players (gameState w) !! pid = Some myPlayer ->
  let v := viewport (gameState w) in
  (player_x myPlayer <= viewport_width v / 2)%Q ->
  (player_y myPlayer <= viewport_height v / 2)%Q ->
  let v' := viewport (gameState (centerViewportOnMyAvatar w)) in
  (viewport_x v' == 0)%Q /\ (viewport_y v' == 0)%Q.
Proof.
  intros Hid Hne Hp v Hx Hy v'.
  destruct (recentered_origin w pid myPlayer Hid Hne Hp) as [Ex Ey].
  cbv zeta in Ex, Ey. fold v in Ex, Ey. subst v'. rewrite Ex, Ey.
  split; apply clamp_low; lra.
Qed.

Lemma viewport_pinned_at_origin_witness :
  let v' := viewport (gameState (centerViewportOnMyAvatar cornerWorld)) in
  (viewport_x v' == 0)%Q /\ (viewport_y v' == 0)%Q.
Proof.
  apply (viewport_pinned_at_origin cornerWorld "p1" cornerPlayer);
    try reflexivity; try discriminate; vm_compute; discriminate.
Defined.

(** X15. When the viewport is no larger than the world and the local
    player is within half a viewport of the right and bottom edges,
    recentering pins the viewport to the far corner: its right and bottom
    edges coincide with those of the world. *)
Theorem viewport_pinned_at_far_corner
  (w : World) (pid : string) (myPlayer : Player) :
  myPlayerId (gameState w) = Some pid ->
  pid <> "" ->
  players (gameState w) !! pid = Some myPlayer ->
  let v := viewport (gameState w) in
  (viewport_width v <= worldWidth)%Q ->
  (viewport_height v <= worldHeight)%Q ->
  (worldWidth - viewport_width v / 2 <= player_x myPlayer)%Q ->
  (worldHeight - viewport_height v / 2 <= player_y myPlayer)%Q ->
  let v' := viewport (gameState (centerViewportOnMyAvatar w)) in
  (viewport_x v' + viewport_width v == worldWidth)%Q /\
  (viewport_y v' + viewport_height v == worldHeight)%Q.
Proof.
  intros Hid Hne Hp v Hw Hh Hx Hy v'.
  destruct (recentered_origin w pid myPlayer Hid Hne Hp) as [Ex Ey].
  cbv zeta in Ex, Ey. fold v in Ex, Ey. subst v'. rewrite Ex, Ey.
  assert (viewport_width v / 2 + viewport_width v / 2 == viewport_width v)%Q
    as Ew by field.
  assert (viewport_height v / 2 + viewport_height v / 2 == viewport_height v)%Q
    as Eh by field.
  split.
  - rewrite clamp_high; [ring|lra|lra].
  - rewrite clamp_high; [ring|lra|lra].
Qed.

Lemma viewport_pinned_at_far_corner_witness :
  let v' := viewport (gameState (centerViewportOnMyAvatar farCornerWorld)) in
  (viewport_x v' + 800 == worldWidth)%Q /\
  (viewport_y v' + 600 == worldHeight)%Q.
Proof.
  apply (viewport_pinned_at_far_corner farCornerWorld "p1" farCornerPlayer);
    try reflexivity; try discriminate; vm_compute; discriminate.
Defined.

(** ** Avatar images *)

Section ForEachSlotMeasure.
Context {A S : Type} (f : A -> S -> A * S).
Context (size : S -> nat) (weight : A -> nat).
Context (f_size : forall a s, size (snd (f a s)) = (size s + weight a)%nat).

Lemma forEach_slot_size (l : list A) (s : S) :
  size (snd (forEach_slot f l s)) = (size s + list_sum (map weight l))%nat.
Proof.
  revert s. induction l as [|a l IH]; intros s; simpl; [lia|].
  pose proof (f_size a s) as Ha. destruct (f a s) as [a1 s1]; simpl in Ha.
  specialize (IH s1). destruct (forEach_slot f l s1) as [l1 s2]; simpl in *.
  lia.
Qed.

Lemma forEach_slot_app (l1 l2 : list A) (s : S) :
  forEach_slot f (l1 ++ l2) s =
  let '(l1', s1) := forEach_slot f l1 s in
  let '(l2', s2) := forEach_slot f l2 s1 in
  (l1' ++ l2', s2).
Proof.
  revert s. induction l1 as [|a l1 IH]; intros s; simpl.
  - by destruct (forEach_slot f l2 s).
  - destruct (f a s) as [a1 s1]. rewrite IH.
    destruct (forEach_slot f l1 s1) as [l1' s2].
    by destruct (forEach_slot f l2 s2).
Qed.

End ForEachSlotMeasure.

Lemma preloadFrameArray_size (frameArray : list Slot) (imgs : list string) :
  List.length (snd (preloadFrameArray frameArray imgs))
  = (List.length imgs + List.length (List.filter isDataSlot frameArray))%nat.
Proof.
  unfold preloadFrameArray.
  rewrite (forEach_slot_size preloadSlot (@List.length string)
             (fun slot => if isDataSlot slot then 1 else 0)%nat).
  - f_equal. induction frameArray as [|slot rest IH]; simpl; [done|].
    destruct (isDataSlot slot); simpl; lia.
  - intros [data|h] s; simpl; [|lia].
    destruct (String.prefix "data:" data); simpl; [|lia].
    rewrite List.length_app. simpl. lia.
Qed.

Lemma preloadAvatars_size (avs : JsObject.t Avatar) (imgs : list string) :
  List.length (snd (preloadAvatars avs imgs))
  = (List.length imgs + dataSlots avs)%nat.
Proof.
  unfold preloadAvatars, dataSlots.
  apply (forEach_slot_size _ (@List.length string)).
  intros [name avatar] s. unfold preloadAvatar.
  pose proof (forEach_slot_size
                (fun '(direction, frameArray) imgs0 =>
                   let '(frameArray', imgs') := preloadFrameArray frameArray imgs0 in
                   ((direction, frameArray'), imgs'))
                (@List.length string)
                (fun frames : string * list Slot =>
                   List.length (List.filter isDataSlot (snd frames)))) as Hframes.
  unfold preloadFrames.
  destruct (forEach_slot _ (avatar_frames avatar) s) as [fr s1] eqn:E.
  simpl. specialize (Hframes ltac:(
    intros [direction frameArray] s0;
    pose proof (preloadFrameArray_size frameArray s0) as H;
    by destruct (preloadFrameArray frameArray s0))
    (avatar_frames avatar) s).
  by rewrite E in Hframes.
Qed.

(** X16. [preloadAvatarImages] creates exactly one image for each slot that
    holds a data string starting with [data:], and none for any other
    slot. *)
Theorem one_image_per_data_slot (w : World) :
  List.length (images (preloadAvatarImages w))
  = (List.length (images w) + dataSlots (avatars (gameState w)))%nat.
Proof.
  destruct (preloadAvatarImages_frame w) as (_ & _ & _ & -> & _).
  apply preloadAvatars_size.
Qed.

Lemma settled_no_data_slot (avs : JsObject.t Avatar) :
  settled preloadAvatars avs -> dataSlots avs = 0%nat.
Proof.
  intros Hs. pose proof (preloadAvatars_size avs []) as Hsize.
  rewrite (Hs []) in Hsize. simpl in Hsize. lia.
Qed.

Lemma step_avatars_settled (e : Event) (w w' : World) :
  settled preloadAvatars (avatars (gameState w)) ->
  step e w = Some w' ->
  settled preloadAvatars (avatars (gameState w')).
Proof.
  intros Hs Hstep. destruct e; simpl in Hstep.
  - by injection Hstep as <-.
  - by injection Hstep as <-.
  - destruct (ws w); [|by injection Hstep as <-].
    unfold ws_onopen in Hstep. rewrite ws_send_open in Hstep by done.
    by injection Hstep as <-.
  - destruct (ws w); by injection Hstep as <-.
  - injection Hstep as <-.
    destruct message as [[] pid snap avs err|p [a|]|moved|pid|action]; simpl;
      try done.
    + match goal with |- context [centerViewportOnMyAvatar ?x] =>
        destruct (centerViewportOnMyAvatar_frame x) as (_ & _ & -> & _) end.
      match goal with |- context [preloadAvatarImages ?x] =>
        destruct (preloadAvatarImages_frame x) as (_ & _ & -> & _) end.
      apply preloadAvatars_settles.
    + match goal with |- context [preloadAvatarImages ?x] =>
        destruct (preloadAvatarImages_frame x) as (_ & _ & -> & _) end.
      apply preloadAvatars_settles.
    + unfold updateMovementPrediction.
      destruct (moved !! _); [|done].
      destruct (somePressed (pressedKeys w)); simpl; [done|].
      match goal with |- context [centerViewportOnMyAvatar ?x] =>
        destruct (centerViewportOnMyAvatar_frame x) as (_ & _ & -> & _) end.
      done.
  - rewrite keydown_eq in Hstep. injection Hstep as <-.
    destruct (mapped key && negb (held w key)); [|done].
    by destruct (movementInterval w).
  - rewrite keyup_eq in Hstep. injection Hstep as <-.
    destruct (mapped key); [|done]. cbv zeta.
    destruct (somePressed _); [done|].
    unfold stopMovementLoop; simpl. by destruct (movementInterval w).
  - destruct (movementInterval w); [|by injection Hstep as <-].
    rewrite movementTick_eq in Hstep. injection Hstep as <-.
    by destruct (_ >=? _)%Z.
Qed.

Lemma reachable_avatars_settled (w : World) :
  reachable w -> settled preloadAvatars (avatars (gameState w)).
Proof.
  induction 1 as [|e w w' _ IH Hstep]; [by intros s|].
  by eapply step_avatars_settled.
Qed.

Lemma with_images_id (w : World) : with_images (images w) w = w.
Proof. by destruct w. Qed.

(** X17. In every reachable state the avatar images are all in place: no
    frame slot holds a data string that is still to be turned into an
    image, so running [preloadAvatarImages] at any time changes nothing. *)
Theorem no_pending_data_slot (w : World) :
  reachable w ->
  dataSlots (avatars (gameState w)) = 0%nat /\ preloadAvatarImages w = w.
Proof.
  intros Hs%reachable_avatars_settled. split; [by apply settled_no_data_slot|].
  unfold preloadAvatarImages. rewrite (Hs (images w)).
  destruct w as [[] ? ? ? ? ? ? ? ?]. done.
Qed.

Lemma no_pending_data_slot_witness :
  dataSlots (avatars (gameState joinedWorld)) = 0%nat /\
  preloadAvatarImages joinedWorld = joinedWorld.
Proof.
  apply no_pending_data_slot.
  apply (reachable_step (Message joinOk) connectedWorld); [|reflexivity].
  apply (reachable_step SocketOpen
           (connectToServer (setupCanvas 800 600 initialWorld))); [|reflexivity].
  apply (reachable_step (WorldImageLoad 800 600) initialWorld); [|reflexivity].
  apply reachable_init.
Defined.

Lemma set_absent {V : Type} (o : JsObject.t V) (k : string) (v : V) :
  JsObject.get o k = None -> JsObject.set o k v = o ++ [(k, v)].
Proof.
  induction o as [|[k' v'] rest IH]; simpl; [done|].
  destruct (String.eqb k' k); [done|]. intros H. by rewrite IH.
Qed.

Lemma preloadAvatars_append
  (avs : JsObject.t Avatar) (name : string) (a : Avatar) (imgs : list string) :
  settled preloadAvatars avs ->
  preloadAvatars (avs ++ [(name, a)]) imgs
  = (avs ++ [(name, fst (preloadAvatar a imgs))], snd (preloadAvatar a imgs)).
Proof.
  intros Hs. unfold preloadAvatars. rewrite forEach_slot_app.
  fold preloadAvatars. rewrite (Hs imgs).
  unfold preloadAvatars. simpl. by destruct (preloadAvatar a imgs).
Qed.

(** X18. A [player_joined] message that brings an avatar under a new name
    appends that avatar, with its data slots turned into new images, and
    leaves every avatar already in the mapping as it is, with the same
    image handles: the images created are those of the newcomer only. *)
Theorem newcomer_avatar_keeps_existing (player : Player) (a : Avatar) (w : World) :
  reachable w ->
  JsObject.get (avatars (gameState w)) (avatar_name a) = None ->
  let w' := handleServerMessage (PlayerJoined player (Some a)) w in
  avatars (gameState w')
    = avatars (gameState w)
      ++ [(avatar_name a, fst (preloadAvatar a (images w)))] /\
  images w' = snd (preloadAvatar a (images w)) /\
  images w `prefix_of` images w'.
Proof.
  intros Hs%reachable_avatars_settled Habsent. simpl.
  match goal with |- context [preloadAvatarImages ?x] =>
    destruct (preloadAvatarImages_frame x) as (_ & _ & Hav & Him & _) end.
  simpl in Hav, Him. rewrite Hav, Him. clear Hav Him.
  rewrite (set_absent _ _ _ Habsent), (preloadAvatars_append _ _ _ _ Hs).
  do 2 (split; [done|]). simpl. unfold preloadAvatar.
  pose proof (preloadFrames_materialized (avatar_frames a) (images w)) as [Hpre _].
  by destruct (preloadFrames (avatar_frames a) (images w)).
Qed.

Lemma newcomer_avatar_keeps_existing_witness :
  let w' := handleServerMessage (PlayerJoined cat (Some knightAvatar)) joinedWorld in
  avatars (gameState w')
    = avatars (gameState joinedWorld)
      ++ [("knight", mkAvatar "knight" [("south", [Img 2; Img 3])])] /\
  images w' = images joinedWorld
              ++ ["data:image/png;base64,CCCC"; "data:image/png;base64,DDDD"] /\
  images joinedWorld `prefix_of` images w'.
Proof.
  apply (newcomer_avatar_keeps_existing cat knightAvatar joinedWorld);
    [|reflexivity].
  apply (reachable_step (Message joinOk) connectedWorld); [|reflexivity].
  apply (reachable_step SocketOpen
           (connectToServer (setupCanvas 800 600 initialWorld))); [|reflexivity].
  apply (reachable_step (WorldImageLoad 800 600) initialWorld); [|reflexivity].
  apply reachable_init.
Defined.

(** * Properties of the renderer *)

Lemma Qlt_bool_true (a b : Q) : Qlt_bool a b = true <-> (a < b)%Q.
Proof.
  unfold Qlt_bool. rewrite negb_true_iff. split.
  - intros H. apply Qnot_le_lt. intros Hle. apply Qle_bool_iff in Hle. congruence.
  - intros H. apply not_true_is_false. intros Hle%Qle_bool_iff.
    by apply (Qlt_not_le a b).
Qed.

Lemma Qlt_bool_false (a b : Q) : Qlt_bool a b = false <-> (b <= a)%Q.
Proof.
  unfold Qlt_bool. rewrite negb_false_iff. apply Qle_bool_iff.
Qed.

(** ** Trail particles *)

Lemma addMovementTrail_queue (x y : Q) (s : Screen) :
  let s' := addMovementTrail x y s in
  movementTrails s'
    = (if (maxTrailLength <=? List.length (movementTrails s))%nat
       then tail (movementTrails s) else movementTrails s)
      ++ [mkTrail x y (clock s (reads s)) 1] /\
  ctx s' = ctx s /\
  ((List.length (movementTrails s) <= maxTrailLength)%nat ->
   (List.length (movementTrails s') <= maxTrailLength)%nat).
Proof.
  unfold addMovementTrail, Date_now, with_movementTrails.
  cbn [movementTrails ctx].
  set (new := mkTrail x y (clock s (reads s)) 1).
  set (trails := movementTrails s).
  rewrite List.length_app. cbn [List.length].
  destruct (Nat.leb_spec maxTrailLength (List.length trails)) as [Hfull|Hroom].
  - assert ((maxTrailLength <? List.length trails + 1)%nat = true) as ->
      by (apply Nat.ltb_lt; lia).
    destruct trails as [|t rest];
      [unfold maxTrailLength in Hfull; simpl in Hfull; lia|].
    cbn [tail app]. do 2 (split; [done|]).
    rewrite List.length_app. simpl. lia.
  - assert ((maxTrailLength <? List.length trails + 1)%nat = false) as ->
      by (apply Nat.ltb_ge; lia).
    do 2 (split; [done|]). rewrite List.length_app. simpl. lia.
Qed.

(** X19. The trail is a queue of at most ten particles: a new particle
    goes to the end with the time read from the clock, and when ten are
    already there the oldest one is dropped. Nothing is drawn. *)
Theorem trail_queue_fifo (x y : Q) (s : Screen) :
  let s' := addMovementTrail x y s in
  movementTrails s'
    = (if (maxTrailLength <=? List.length (movementTrails s))%nat
       then tail (movementTrails s) else movementTrails s)
      ++ [mkTrail x y (clock s (reads s)) 1] /\
  ctx s' = ctx s /\
  ((List.length (movementTrails s) <= maxTrailLength)%nat ->
   (List.length (movementTrails s') <= maxTrailLength)%nat).
Proof. apply addMovementTrail_queue. Qed.

Lemma trail_queue_fifo_witness :
  (List.length (movementTrails trailScreen) <= maxTrailLength)%nat /\
  (List.length (movementTrails (addMovementTrail 400 300 trailScreen))
   <= maxTrailLength)%nat.
Proof.
  split; [vm_compute; lia|].
  apply (trail_queue_fifo 400 300 trailScreen). vm_compute. lia.
Defined.

Lemma trail_alpha_positive (now : Z) (trail : Trail) :
  Qlt_bool 0 (Qmax 0 (1 - inject_Z (now - trail_time trail) / 500))
  = Qlt_bool (inject_Z (now - trail_time trail)) 500.
Proof.
  set (age := inject_Z (now - trail_time trail)).
  assert (age / 500 == age * (1 # 500))%Q as Ediv by (unfold Qdiv; reflexivity).
  apply eq_true_iff_eq. rewrite !Qlt_bool_true. split.
  - intros Hpos. destruct (Q.max_spec 0 (1 - age / 500)) as [[Hlt E]|[Hle E]].
    + rewrite E in Hpos. rewrite Ediv in Hpos. lra.
    + rewrite E in Hpos. by apply Qlt_irrefl in Hpos.
  - intros Hage. apply (Qlt_le_trans _ (1 - age / 500)); [|apply Q.le_max_r].
    rewrite Ediv. lra.
Qed.

(** X20. [drawMovementTrails] keeps exactly the particles less than 500 ms
    old at the time it reads, in their order, and those are the particles
    it draws: one circle each, at the particle's position, and none for a
    particle it removes. *)
Theorem trails_expire_after_lifetime (s : Screen) :
  let now := clock s (reads s) in
  let s' := drawMovementTrails s in
  movementTrails s'
    = List.filter (fun trail => Qlt_bool (inject_Z (now - trail_time trail)) 500)
                  (movementTrails s) /\
  Forall (fun trail => (now - trail_time trail < 500)%Z) (movementTrails s') /\
  circles (newCalls s s')
    = map (fun trail => (trail_x trail, trail_y trail)) (movementTrails s').
Proof.
  unfold drawMovementTrails, newCalls. simpl.
  set (now := clock s (reads s)).
  assert (forall trails,
            circles (flat_map (drawTrail now 500) trails)
            = map (fun trail => (trail_x trail, trail_y trail))
                  (List.filter
                     (fun trail => Qlt_bool (inject_Z (now - trail_time trail)) 500)
                     trails)) as Hcircles.
  { induction trails as [|t rest IH]; simpl; [done|].
    unfold circles in *. rewrite omap_app, IH. unfold drawTrail.
    rewrite trail_alpha_positive.
    by destruct (Qlt_bool (inject_Z (now - trail_time t)) 500). }
  assert (forall trails,
            Forall (fun trail => (now - trail_time trail < 500)%Z)
              (List.filter
                 (fun trail => Qlt_bool (inject_Z (now - trail_time trail)) 500)
                 trails)) as Hyoung.
  { intros trails. apply List.Forall_forall. intros t [_ Ht]%List.filter_In.
    apply Qlt_bool_true in Ht. change 500%Q with (inject_Z 500) in Ht.
    by rewrite <- Zlt_Qlt in Ht. }
  destruct (movementTrails s) as [|t rest] eqn:E; simpl.
  - split; [done|]. split; [constructor|].
    by rewrite <- app_assoc, drop_app_length.
  - split; [done|]. split; [apply (Hyoung (t :: rest))|].
    rewrite <- !app_assoc, drop_app_length.
    pose proof (Hcircles (t :: rest)) as Hc. simpl in Hc. rewrite <- Hc.
    unfold circles. rewrite !omap_app. simpl. by rewrite app_nil_r.
Qed.

(** The particles created 1000, 400 and 100 ms before the reading: the
    first is removed, the other two are drawn and kept. *)
Example trails_expire_sample :
  movementTrails (drawMovementTrails trailScreen)
    = [mkTrail 30 40 4600 1; mkTrail 50 60 4900 1] /\
  circles (newCalls trailScreen (drawMovementTrails trailScreen))
    = [(30, 40); (50, 60)]%Q.
Proof. split; reflexivity. Qed.

(** ** How the drawing functions change the screen *)

Lemma nesting_app (calls1 calls2 : list CtxCall) :
  nesting (calls1 ++ calls2) = (nesting calls1 + nesting calls2)%Z.
Proof.
  induction calls1 as [|c rest IH]; simpl; [lia|].
  destruct c; lia.
Qed.

Lemma drawn_refl (s : Screen) : drawn s s.
Proof.
  split; [by repeat split|]. split; [|done].
  exists []. by rewrite app_nil_r.
Qed.

Lemma drawn_trans (s1 s2 s3 : Screen) : drawn s1 s2 -> drawn s2 s3 -> drawn s1 s3.
Proof.
  intros ((A1 & A2 & A3 & A4 & A5) & (c1 & Hc1 & Hn1) & Ht1)
         ((B1 & B2 & B3 & B4 & B5) & (c2 & Hc2 & Hn2) & Ht2).
  split; [repeat split; congruence|]. split; [|tauto].
  exists (c1 ++ c2). split; [by rewrite Hc2, Hc1, app_assoc|].
  rewrite nesting_app. lia.
Qed.

Lemma drawn_call (calls : list CtxCall) (s : Screen) :
  nesting calls = 0%Z -> drawn s (call calls s).
Proof.
  intros Hn. split; [by repeat split|]. split; [|done]. by exists calls.
Qed.

Lemma drawn_addMovementTrail (x y : Q) (s : Screen) :
  drawn s (addMovementTrail x y s).
Proof.
  destruct (addMovementTrail_queue x y s) as (_ & Hctx & Hbound).
  split; [by repeat split|]. split; [|exact Hbound].
  exists []. by rewrite app_nil_r.
Qed.

Lemma nesting_flat_map_drawTrail (now : Z) (lifetime : Q) (trails : list Trail) :
  nesting (flat_map (drawTrail now lifetime) trails) = 0%Z.
Proof.
  induction trails as [|t rest IH]; simpl; [done|].
  rewrite nesting_app, IH. unfold drawTrail. by destruct (Qlt_bool _ _).
Qed.

Lemma drawn_drawMovementTrails (s : Screen) : drawn s (drawMovementTrails s).
Proof.
  unfold drawMovementTrails, drawn, samePage. simpl.
  destruct (movementTrails s) as [|t rest] eqn:E; simpl.
  - split; [by repeat split|]. split; [|done].
    exists [ctx_save; ctx_restore]. by rewrite <- app_assoc.
  - split; [by repeat split|]. split.
    + eexists. rewrite <- !app_assoc. split; [reflexivity|].
      pose proof (nesting_flat_map_drawTrail (clock s (reads s)) 500 (t :: rest))
        as Hn. simpl in Hn.
      rewrite (nesting_app [ctx_save]), app_assoc, nesting_app, Hn.
      reflexivity.
    + intros Hb.
      pose proof (List.filter_length_le
                    (fun trail =>
                       Qlt_bool (inject_Z (clock s (reads s) - trail_time trail)) 500)
                    (t :: rest)) as Hle.
      simpl in Hle. lia.
Qed.

Lemma drawn_drawPlayerLabel (username : string) (x y : Q) (mine : bool) (s : Screen) :
  drawn s (drawPlayerLabel username x y mine s).
Proof.
  unfold drawPlayerLabel.
  split; [by destruct mine; repeat split|]. split; [|by destruct mine].
  destruct mine; simpl; rewrite <- !app_assoc; eexists; split; try reflexivity;
    reflexivity.
Qed.

Lemma drawn_drawUI (w : World) (s : Screen) : drawn s (drawUI w s).
Proof.
  unfold drawUI. split; [by repeat split|]. split; [|done].
  simpl. rewrite <- !app_assoc. eexists. split; [reflexivity|].
  by destruct (notOpen w).
Qed.

Lemma drawn_drawPlayer (player : Player) (w : World) (s s' : Screen) :
  drawPlayer player w s = Some s' -> drawn s s'.
Proof.
  unfold drawPlayer.
  destruct (JsObject.get (avatars (gameState w)) (player_avatar player))
    as [avatar|]; [|intros [= <-]; apply drawn_refl].
  destruct (outsideViewport _ _ s); [intros [= <-]; apply drawn_refl|].
  set (s1 := if isMyPlayer w player && player_isMoving player
             then addMovementTrail _ _ s else s).
  assert (drawn s s1) as H1.
  { unfold s1. destruct (_ && _); [apply drawn_addMovementTrail|apply drawn_refl]. }
  destruct (framesFor avatar player) as [frames|]; [|done].
  destruct (frames !! player_animationFrame player) as [[data|image]|];
    [intros [= <-]; exact H1| |intros [= <-]; exact H1].
  destruct (imageStatus s1 image) as [|nw nh]; [intros [= <-]; exact H1|].
  intros [= <-]. eapply drawn_trans; [exact H1|].
  eapply drawn_trans; [|apply drawn_drawPlayerLabel].
  split; [by destruct (player_facing player); repeat split|].
  split; [|by destruct (player_facing player)].
  destruct (player_facing player); simpl; rewrite <- !app_assoc;
    eexists; (split; [reflexivity|]); reflexivity.
Qed.

Lemma drawn_drawPlayers (values : list Player) (w : World) (s s' : Screen) :
  drawPlayers values w s = Some s' -> drawn s s'.
Proof.
  revert s. induction values as [|player rest IH]; simpl; intros s.
  - intros [= <-]. apply drawn_refl.
  - destruct (drawPlayer player w s) as [s1|] eqn:E; simpl; [|done].
    intros H. eapply drawn_trans; [by eapply drawn_drawPlayer|by apply IH].
Qed.

Lemma drawn_draw (values : list Player) (w : World) (s s' : Screen) :
  draw values w s = Some s' -> drawn s s'.
Proof.
  unfold draw. destruct (worldImage s) as [[|nw nh]|];
    [intros [= <-]; apply drawn_refl| |intros [= <-]; apply drawn_refl].
  match goal with |- context [drawMovementTrails ?x] => set (s1 := x) end.
  destruct (drawPlayers values w (drawMovementTrails s1)) as [s2|] eqn:E;
    simpl; [|done].
  intros [= <-].
  apply (drawn_trans s s1); [by apply drawn_call|].
  eapply drawn_trans; [apply drawn_drawMovementTrails|].
  eapply drawn_trans; [by eapply drawn_drawPlayers|apply drawn_drawUI].
Qed.

(** X21. A frame never lets the trail grow past ten particles: if the
    queue holds at most ten before [draw], it holds at most ten after it,
    however many players are drawn. *)
Theorem draw_keeps_trail_bound (values : list Player) (w : World) (s s' : Screen) :
  draw values w s = Some s' ->
  (List.length (movementTrails s) <= maxTrailLength)%nat ->
  (List.length (movementTrails s') <= maxTrailLength)%nat.
Proof. intros (_ & _ & H)%drawn_draw. exact H. Qed.

(** X22. A frame only adds calls to the context, and among the calls it
    adds there are as many [restore] as [save]: the state stack of the
    context is as deep after [draw] as before. The canvas size, the images
    and the clock are not changed by drawing. *)
Theorem draw_balances_save_restore
  (values : list Player) (w : World) (s s' : Screen) :
  draw values w s = Some s' ->
  ctx s' = ctx s ++ newCalls s s' /\
  nesting (newCalls s s') = 0%Z /\
  samePage s s'.
Proof.
  intros (Hpage & (calls & Hctx & Hn) & _)%drawn_draw.
  unfold newCalls. rewrite Hctx, drop_app_length.
  split; [done|]. split; [exact Hn|exact Hpage].
Qed.


Lemma draw_keeps_trail_bound_witness :
  exists s' : Screen,
    draw [timWest; ann; bob] walkingWorld trailScreen = Some s' /\
    (List.length (movementTrails s') <= maxTrailLength)%nat.
Proof.
  destruct (draw [timWest; ann; bob] walkingWorld trailScreen) as [s'|] eqn:E;
    [|vm_compute in E; discriminate E].
  exists s'. split; [reflexivity|].
  apply (draw_keeps_trail_bound _ _ _ _ E). vm_compute. lia.
Defined.

Lemma draw_balances_save_restore_witness :
  exists s' : Screen,
    draw [timWest; ann; bob] walkingWorld trailScreen = Some s' /\
    ctx s' = ctx trailScreen ++ newCalls trailScreen s' /\
    nesting (newCalls trailScreen s') = 0%Z /\
    samePage trailScreen s'.
Proof.
  destruct (draw [timWest; ann; bob] walkingWorld trailScreen) as [s'|] eqn:E;
    [|vm_compute in E; discriminate E].
  exists s'. split; [reflexivity|].
  exact (draw_balances_save_restore _ _ _ _ E).
Defined.

(** ** Drawing one player *)


Lemma outsideViewport_false (x y : Q) (s : Screen) :
  outsideViewport x y s = false <->
  (-50 <= x /\ x <= canvas_width s + 50 /\ -50 <= y /\ y <= canvas_height s + 50)%Q.
Proof.
  unfold outsideViewport. rewrite !orb_false_iff, !Qlt_bool_false. tauto.
Qed.



Lemma drawPlayer_throws (player : Player) (avatar : Avatar) (w : World) (s : Screen) :
  JsObject.get (avatars (gameState w)) (player_avatar player) = Some avatar ->
  outsideViewport (screenX player w) (screenY player w) s = false ->
  framesFor avatar player = None ->
  drawPlayer player w s = None.
Proof.
  unfold drawPlayer, screenX, screenY. intros -> -> Hf.
  match goal with |- context [framesFor avatar player] => rewrite Hf end.
  reflexivity.
Qed.

(** The local player of the sample snapshot faces south and its avatar has
    frames for north and east only. *)
Example drawPlayer_throws_sample :
  drawPlayer tim joinedWorld freshScreen = None /\
  drawPlayer timWest walkingWorld freshScreen <> None.
Proof. split; [reflexivity|]. vm_compute. discriminate. Qed.

(** X25. One player whose avatar lacks the frames for its direction stops
    the whole frame: when the world image has loaded and some enumerated
    player is within the margin with such an avatar, reading a frame of the
    missing array is a [TypeError] and [draw] throws, so nothing after that
    player is drawn and the status overlay is not reached. *)
Theorem malformed_avatar_stops_frame
  (values : list Player) (player : Player) (avatar : Avatar)
  (w : World) (s : Screen) (naturalWidth naturalHeight : positive) :
  worldImage s = Some (Loaded naturalWidth naturalHeight) ->
  In player values ->
  JsObject.get (avatars (gameState w)) (player_avatar player) = Some avatar ->
  (-50 <= screenX player w /\ screenX player w <= canvas_width s + 50 /\
   -50 <= screenY player w /\ screenY player w <= canvas_height s + 50)%Q ->
  framesFor avatar player = None ->
  draw values w s = None.
Proof.
  intros Hworld Hin Hav Hvis Hf. unfold draw. rewrite Hworld.
  match goal with |- context [drawPlayers values w ?x] => set (s1 := x) end.
  assert (canvas_width s1 = canvas_width s /\ canvas_height s1 = canvas_height s)
    as Hsize.
  { assert (drawn s s1) as ((A & B & _) & _); [|done].
    unfold s1. eapply drawn_trans; [|apply drawn_drawMovementTrails].
    by apply drawn_call. }
  assert (drawPlayers values w s1 = None) as ->; [|done].
  clearbody s1. revert s1 Hsize.
  induction values as [|q rest IH]; intros s1 [Hcw Hch]; [destruct Hin|].
  simpl. destruct (drawPlayer q w s1) as [s2|] eqn:E; simpl; [|done].
  destruct Hin as [->|Hin].
  - exfalso. assert (drawPlayer player w s1 = None); [|congruence].
    apply (drawPlayer_throws player avatar); [done| |done].
    apply outsideViewport_false. by rewrite Hcw, Hch.
  - apply IH; [done|].
    apply drawn_drawPlayer in E as ((A & B & _) & _). split; congruence.
Qed.

Lemma malformed_avatar_stops_frame_witness :
  draw [ann; tim; bob] joinedWorld freshScreen = None.
Proof.
  apply (malformed_avatar_stops_frame [ann; tim; bob] tim
           (mkAvatar "default" [("north", [Img 0; Raw "pending"]); ("east", [Img 1])])
           joinedWorld freshScreen 2048 2048).
  - reflexivity.
  - right; left; reflexivity.
  - reflexivity.
  - vm_compute. repeat split; discriminate.
  - reflexivity.
Defined.

(** X26. A player whose frame cannot be drawn yet is skipped without a
    single call on the context: when the slot for its animation frame does
    not exist, still holds a string, or holds an image that is still
    loading. *)
Theorem unready_frame_not_drawn
  (player : Player) (avatar : Avatar) (frames : list Slot) (w : World) (s : Screen) :
  JsObject.get (avatars (gameState w)) (player_avatar player) = Some avatar ->
  framesFor avatar player = Some frames ->
  notReady s frames (player_animationFrame player) ->
  exists s' : Screen, drawPlayer player w s = Some s' /\ ctx s' = ctx s.
Proof.
  intros Hav Hf Hnot. unfold drawPlayer. rewrite Hav.
  destruct (outsideViewport _ _ s); [eauto|].
  match goal with |- context [if ?b then addMovementTrail ?x ?y s else s] =>
    set (s1 := if b then addMovementTrail x y s else s) end.
  assert (ctx s1 = ctx s /\ imageStatus s1 = imageStatus s) as [Hctx Him].
  { unfold s1. destruct (_ && _); [|done].
    split; [apply addMovementTrail_queue|reflexivity]. }
  rewrite Hf. unfold notReady in Hnot.
  destruct (frames !! player_animationFrame player) as [[data|image]|]; eauto.
  rewrite Him, Hnot. eauto.
Qed.

Lemma unready_frame_not_drawn_witness :
  exists s' : Screen,
    drawPlayer timWest walkingWorld loadingScreen = Some s' /\
    ctx s' = ctx loadingScreen.
Proof.
  apply (unready_frame_not_drawn timWest
           (mkAvatar "default" [("north", [Img 0; Raw "pending"]); ("east", [Img 1])])
           [Img 1] walkingWorld loadingScreen); reflexivity.
Defined.




